(** * The API-specification maintenance scripts: fix-api-spec.py, validate-spec.py

    A shallow embedding of the two scripts.  Python [str] values are modelled
    as [string]; a character is a code point below 256.  The removal set
    [lines_to_remove] of [fix_api_spec] is a [gset nat], lists are Rocq
    lists and indices are [nat]. *)

From Stdlib Require Import Ascii String ZArith.
From stdpp Require Import base list gmap sets strings pretty sorting.

Set Warnings "-register-all".

Local Open Scope string_scope.
Local Open Scope nat_scope.
Local Open Scope list_scope.

(** ** Python string primitives used by the scripts *)

Module Py.

Definition nl : ascii := "010"%char.
Definition dquote : ascii := "034"%char.

(** [str.isspace] on one character, which is also what [\s] matches in a
    [str] pattern and what [str.strip] removes: TAB..CR, FS..US, SPACE,
    NEL and NBSP are the white-space code points below 256. *)
Definition isspace (c : ascii) : bool :=
  let n := nat_of_ascii c in
  ((9 <=? n) && (n <=? 13)) || ((28 <=? n) && (n <=? 32))
  || (n =? 133) || (n =? 160).

Fixpoint lstrip (s : string) : string :=
  match s with
  | EmptyString => EmptyString
  | String c s' => if isspace c then lstrip s' else s
  end.

Fixpoint rstrip (s : string) : string :=
  match s with
  | EmptyString => EmptyString
  | String c s' =>
      match rstrip s' with
      | EmptyString => if isspace c then EmptyString else String c EmptyString
      | r => String c r
      end
  end.

(** [s.strip()] *)
Definition strip (s : string) : string := rstrip (lstrip s).

(** [s.startswith(p)] *)
Definition startswith (p s : string) : bool := String.prefix p s.

(** [needle in hay] on strings *)
Fixpoint contains (needle hay : string) : bool :=
  String.prefix needle hay
  || match hay with
     | EmptyString => false
     | String _ hay' => contains needle hay'
     end.

(** [s.split('\n')]: never empty, one more element than there are
    newlines. *)
Fixpoint split_nl (s : string) : list string :=
  match s with
  | EmptyString => [EmptyString]
  | String c s' =>
      if Ascii.eqb c nl then EmptyString :: split_nl s'
      else match split_nl s' with
           | l :: ls => String c l :: ls
           | [] => [String c EmptyString]
           end
  end.

(** ['\n'.join(ls)] *)
Fixpoint join_nl (ls : list string) : string :=
  match ls with
  | [] => EmptyString
  | [l] => l
  | l :: ls' => l +:+ String nl (join_nl ls')
  end.

(** The longest white-space prefix of [s]; [lstrip s] is what follows it. *)
Fixpoint take_space (s : string) : string :=
  match s with
  | EmptyString => EmptyString
  | String c s' => if isspace c then String c (take_space s') else EmptyString
  end.

(** [s[n:]] *)
Fixpoint skip (n : nat) (s : string) : string :=
  match n, s with
  | S k, String _ s' => skip k s'
  | _, _ => s
  end.

(** The pattern [(\s+)default: W(\s)] once group 1 is fixed to [ws] and
    [rest] is what follows it.  On success: the replacement (group 1, the
    literal with the word between double quotes, group 2) and the number of
    characters matched. *)
Definition match_core (word ws rest : string) : option (string * nat) :=
  let lit := "default: " +:+ word in
  if (0 <? String.length ws) && String.prefix lit rest then
    match skip (String.length lit) rest with
    | String c _ =>
        if isspace c then
          Some (ws +:+ "default: " +:+ String dquote word
                   +:+ String dquote (String c EmptyString),
                String.length ws + String.length lit + 1)
        else None
    | EmptyString => None
    end
  else None.

(** One attempt of the pattern at the start of [s].  The greedy [\s+] takes
    the whole white-space prefix; giving characters back cannot help, for
    the literal starts with [d], not with white space. *)
Definition match_default (word s : string) : option (string * nat) :=
  match_core word (take_space s) (lstrip s).

(** [s] holds white space only. *)
Fixpoint all_space (s : string) : bool :=
  match s with
  | EmptyString => true
  | String c s' => isspace c && all_space s'
  end.

(** [s] holds no newline. *)
Fixpoint no_nl (s : string) : bool :=
  match s with
  | EmptyString => true
  | String c s' => negb (Ascii.eqb c nl) && no_nl s'
  end.

(** The number of lines of [s]. *)
Definition nlines (s : string) : nat := length (split_nl s).

(** [s] is empty or ends with a newline: what follows it starts a line. *)
Definition at_line_start (s : string) : Prop :=
  last (split_nl s) = Some EmptyString.

(** [re.sub] with that pattern: scan from the left; a match at the current
    position is replaced and the scan resumes behind it ([pending] counts
    the matched characters still to pass over), otherwise the character is
    copied and the scan moves one step. *)
Fixpoint sub_default_from (word : string) (pending : nat) (s : string)
  : string :=
  match s with
  | EmptyString => EmptyString
  | String c s' =>
      match pending with
      | S k => sub_default_from word k s'
      | O =>
          match match_default word s with
          | Some (repl, n) => repl +:+ sub_default_from word (n - 1) s'
          | None => String c (sub_default_from word 0 s')
          end
      end
  end.

(** [re.sub] of the pattern by its quoted form, over the whole of [s] *)
Definition sub_default (word s : string) : string :=
  sub_default_from word 0 s.

(** [s] without its double quotes. *)
Fixpoint remove_dquotes (s : string) : string :=
  match s with
  | EmptyString => EmptyString
  | String c s' =>
      if Ascii.eqb c dquote then remove_dquotes s'
      else String c (remove_dquotes s')
  end.

(** [s] holds no double quote. *)
Fixpoint no_dquote (s : string) : bool :=
  match s with
  | EmptyString => true
  | String c s' => negb (Ascii.eqb c dquote) && no_dquote s'
  end.

(** [list(enumerate(l))] *)
Definition enumerate {A} (l : list A) : list (nat * A) := imap pair l.

(** [set(range(start, stop))] *)
Definition range_set (start stop : nat) : gset nat :=
  set_seq start (stop - start).

End Py.

(** ** fix-api-spec.py: the duplicate-section passes *)

Module Fix.
Import Py.

(** The line at index [j] ([lines[j]]; every use is in range). *)
Definition line_at (lines : list string) (j : nat) : string :=
  default EmptyString (lines !! j).

(** Lines 28-32 for one marker test:
    [[i for i, line in enumerate(lines) if marker(line)]]. *)
Definition match_indices (marker : string → bool) (lines : list string)
  : list nat :=
  (filter (λ p, marker p.2 = true) (enumerate lines)).*1.

(** Lines 46-51 (and 62-67): [end_idx = len(lines)], then the first [j] in
    [range(start_idx + 1, len(lines))] whose line is a boundary, if any. *)
Definition find_end (is_boundary : string → bool) (lines : list string)
    (start_idx : nat) : nat :=
  match List.find (λ j, is_boundary (line_at lines j))
                  (seq (S start_idx) (length lines - S start_idx)) with
  | Some j => j
  | None => length lines
  end.

(** Lines 41-54 (and 57-70): when the marker has more than one match, every
    match but the first adds [range(start_idx, end_idx)] to the set. *)
Definition mark_duplicates (is_boundary : string → bool)
    (lines : list string) (indices : list nat) (rm : gset nat) : gset nat :=
  if decide (1 < length indices) then
    foldl (λ rm start_idx,
             rm ∪ range_set start_idx (find_end is_boundary lines start_idx))
          rm (drop 1 indices)
  else rm.

(** Line 75: [[line for i, line in enumerate(lines) if i not in rm]]. *)
Definition cleaned_lines (lines : list string) (rm : gset nat)
  : list string :=
  (filter (λ p, p.1 ∉ rm) (enumerate lines)).*2.

(** The removal set of one pass started from the empty set (line 38). *)
Definition removal_set (lines : list string) (marker is_boundary : string → bool)
  : gset nat :=
  mark_duplicates is_boundary lines (match_indices marker lines) ∅.

(** One pass of [fix_api_spec] over the split document with its marker test
    and its boundary test as arguments: collect the matches (28-32), mark
    the duplicates' spans (41-54), and rewrite only when something was
    marked (73-76). *)
Definition remove_duplicates (lines : list string)
    (marker is_boundary : string → bool) : list string :=
  let rm := removal_set lines marker is_boundary in
  if decide (rm = ∅) then lines else cleaned_lines lines rm.

(** *** Vocabulary of the properties *)

(** The number of lines on which the marker test succeeds. *)
Definition occurrences (marker : string → bool) (lines : list string) : nat :=
  length (filter (λ l, marker l = true) lines).

(** [end_idx] is the index of the first boundary line after [start_idx],
    or the length of the document when no later line is a boundary. *)
Definition is_boundary_index (is_boundary : string → bool)
    (lines : list string) (start_idx end_idx : nat) : Prop :=
  start_idx < end_idx ≤ length lines
  ∧ (∀ j, start_idx < j < end_idx → is_boundary (line_at lines j) = false)
  ∧ (end_idx < length lines → is_boundary (line_at lines end_idx) = true).

(** Index [m] holds an occurrence of the marker after the first one. *)
Definition later_occurrence (marker : string → bool) (lines : list string)
    (m : nat) : Prop :=
  m < length lines ∧ marker (line_at lines m) = true
  ∧ ∃ i, i < m ∧ marker (line_at lines i) = true.

(** The spans [(start_idx, end_idx)] of the duplicates, one for every match
    after the first, and the sum of their lengths. *)
Definition duplicate_spans (lines : list string)
    (marker is_boundary : string → bool) : list (nat * nat) :=
  (λ m, (m, find_end is_boundary lines m)) <$> drop 1 (match_indices marker lines).

Definition span_lengths (spans : list (nat * nat)) : nat :=
  sum_list ((λ sp, sp.2 - sp.1) <$> spans).

(** *** The two hand-coded passes *)

Definition is_billing (line : string) : bool :=
  contains "/api/billing/plans:" (strip line).

Definition is_webhook (line : string) : bool :=
  contains "/api/webhooks/dodo:" (strip line).

(** The test under which the loop of lines 28-32 appends to
    [webhook_indices]: the [elif] is reached only off the billing marker. *)
Definition is_webhook_only (line : string) : bool :=
  negb (is_billing line) && is_webhook line.

(** Lines 25-32: one loop fills both index lists; the [elif] gives a line
    that holds both markers to the billing list only. *)
Definition collect_indices (lines : list string) : list nat * list nat :=
  foldl (λ (acc : list nat * list nat) (p : nat * string),
           if is_billing p.2 then ((acc.1 ++ [p.1])%list, acc.2)
           else if is_webhook p.2 then (acc.1, (acc.2 ++ [p.1])%list)
           else acc)
        ([], []) (enumerate lines).

(** Lines 48-49 *)
Definition billing_boundary (line : string) : bool :=
  let line := strip line in
  startswith "# " line
  || (startswith "/api/" line && negb (startswith "/api/billing" line)).

(** Lines 64-65 *)
Definition webhook_boundary (line : string) : bool :=
  let line := strip line in
  startswith "# " line && negb (contains "Webhook" line).

(** Lines 38-70 *)
Definition lines_to_remove (lines : list string) : gset nat :=
  let idx := collect_indices lines in
  let rm := mark_duplicates billing_boundary lines idx.1 ∅ in
  mark_duplicates webhook_boundary lines idx.2 rm.

(** Lines 17-18: the two quoting substitutions, on the whole content. *)
Definition quote_defaults (content : string) : string :=
  sub_default "published" (sub_default "en" content).

(** [fix_api_spec] as a function from the content read from the file to
    the content written back (lines 12-80). *)
Definition fix_api_spec (content : string) : string :=
  let content := quote_defaults content in
  let lines := split_nl content in
  let rm := lines_to_remove lines in
  if decide (rm = ∅) then content
  else join_nl (cleaned_lines lines rm).

(** *** What [fix_api_spec] prints *)

(** The lines printed by [fix_api_spec]; a marking message carries the two
    numbers it shows, [start_idx + 1] and [end_idx]. *)
Inductive fmsg :=
| FFixing
| FLooking
| FFoundBilling (ns : list nat)
| FFoundWebhook (ns : list nat)
| FRemovingBilling
| FMarking (first_line last_line : nat)
| FRemovingWebhook
| FMarkingWebhook (first_line last_line : nat)
| FRemoving (n : nat)
| FFixed.

#[export] Instance fmsg_eq_dec : EqDecision fmsg.
Proof. solve_decision. Defined.

(** Lines 41-53 (and 57-69): the heading of a pass that has duplicates, then
    one marking message for every match but the first. *)
Definition mark_report (heading : fmsg) (marking : nat → nat → fmsg)
    (is_boundary : string → bool) (lines : list string) (indices : list nat)
  : list fmsg :=
  if decide (1 < length indices) then
    heading :: ((λ start_idx,
                   marking (start_idx + 1) (find_end is_boundary lines start_idx))
                  <$> drop 1 indices)
  else [].

(** Lines 16-82: everything [fix_api_spec] prints, in order. *)
Definition fix_output (content : string) : list fmsg :=
  let content := quote_defaults content in
  let lines := split_nl content in
  let idx := collect_indices lines in
  let rm := lines_to_remove lines in
  [FFixing; FLooking;
   FFoundBilling ((λ i, i + 1) <$> idx.1);
   FFoundWebhook ((λ i, i + 1) <$> idx.2)]
  ++ mark_report FRemovingBilling FMarking billing_boundary lines idx.1
  ++ mark_report FRemovingWebhook FMarkingWebhook webhook_boundary lines idx.2
  ++ (if decide (rm = ∅) then [] else [FRemoving (size rm)])
  ++ [FFixed].

End Fix.

(** ** validate-spec.py *)

Module Validate.
Import Py.

(** What [yaml.safe_load] returns, for documents made of null, booleans,
    integers, strings, sequences and mappings with string keys.  A mapping
    keeps its insertion order. *)
Inductive pyval :=
| PNone
| PBool (b : bool)
| PInt (z : Z)
| PStr (s : string)
| PList (l : list pyval)
| PDict (d : list (string * pyval)).

(** The exceptions the script can meet besides [ImportError] and
    [yaml.YAMLError]; all derive from [Exception]. *)
Inductive exn := TypeError | AttributeError | OSError.

(** Lines 16-17, [open] and [yaml.safe_load] on the file: the parser
    rejects the text, or reading fails otherwise, or a value comes back. *)
Inductive load_result :=
| YAMLError
| LoadFailure
| Loaded (spec : pyval).

(** The lines the script prints. *)
Inductive msg :=
| MValidating
| MYamlValid
| MYamlError
| MMissingField (field : string)
| MFieldsPresent
| MFoundPaths (n : nat)
| MFoundSchemas (n : nat)
| MMissingRefs (refs : list string)
| MRefsValid
| MDefaultsQuoted
| MSpecValid
| MSpecHasIssues
| MValidationError (e : exn)
| MSkipped.

(** *** Python operations on loaded values *)

Fixpoint dict_get (d : list (string * pyval)) (k : string) : option pyval :=
  match d with
  | [] => None
  | (k', v) :: d' => if String.eqb k' k then Some v else dict_get d' k
  end.

Definition is_pstr (x : string) (v : pyval) : bool :=
  match v with PStr s => String.eqb s x | _ => false end.

Fixpoint chars (s : string) : list pyval :=
  match s with
  | EmptyString => []
  | String c s' => PStr (String c EmptyString) :: chars s'
  end.

(** [x in c] for a string [x] *)
Definition py_in (x : string) (c : pyval) : exn + bool :=
  match c with
  | PDict d => inr (bool_decide (is_Some (dict_get d x)))
  | PList l => inr (existsb (is_pstr x) l)
  | PStr s => inr (contains x s)
  | _ => inl TypeError
  end.

(** [c.get(k, dflt)]; only mappings have [get]. *)
Definition py_get (c : pyval) (k : string) (dflt : pyval) : exn + pyval :=
  match c with
  | PDict d => inr (default dflt (dict_get d k))
  | _ => inl AttributeError
  end.

(** [len(c)] *)
Definition py_len (c : pyval) : exn + nat :=
  match c with
  | PDict d => inr (length d)
  | PList l => inr (length l)
  | PStr s => inr (String.length s)
  | _ => inl TypeError
  end.

(** [c.items()] *)
Definition py_items (c : pyval) : exn + list (string * pyval) :=
  match c with
  | PDict d => inr d
  | _ => inl AttributeError
  end.

(** The values [for x in c] runs through. *)
Definition py_iter (c : pyval) : exn + list pyval :=
  match c with
  | PList l => inr l
  | PDict d => inr (PStr <$> d.*1)
  | PStr s => inr (chars s)
  | _ => inl TypeError
  end.

Definition is_dict (v : pyval) : bool :=
  match v with PDict _ => true | _ => false end.

Definition is_str (v : pyval) : bool :=
  match v with PStr _ => true | _ => false end.

(** *** [json.dumps] with its default arguments *)

Definition hex_digit (n : nat) : ascii :=
  ascii_of_nat (if n <? 10 then 48 + n else 87 + n).

Definition backslash : ascii := "092"%char.

(** One character of a JSON string under [ensure_ascii]. *)
Definition json_escape (c : ascii) : string :=
  let n := nat_of_ascii c in
  let esc (x : string) := String backslash x in
  if Ascii.eqb c dquote then esc (String dquote EmptyString)
  else if Ascii.eqb c backslash then esc (String backslash EmptyString)
  else if n =? 8 then esc "b"
  else if n =? 12 then esc "f"
  else if n =? 10 then esc "n"
  else if n =? 13 then esc "r"
  else if n =? 9 then esc "t"
  else if (32 <=? n) && (n <=? 126) then String c EmptyString
  else esc ("u00" +:+ String (hex_digit (n / 16))
                        (String (hex_digit (n mod 16)) EmptyString)).

Fixpoint json_escape_all (s : string) : string :=
  match s with
  | EmptyString => EmptyString
  | String c s' => json_escape c +:+ json_escape_all s'
  end.

Definition json_string (s : string) : string :=
  String dquote (json_escape_all s) +:+ String dquote EmptyString.

Fixpoint json_dumps (v : pyval) : string :=
  match v with
  | PNone => "null"
  | PBool true => "true"
  | PBool false => "false"
  | PInt z => pretty z
  | PStr s => json_string s
  | PList l => "[" +:+ String.concat ", " (List.map json_dumps l) +:+ "]"
  | PDict d =>
      "{" +:+ String.concat ", "
                (List.map (λ '(k, x), json_string k +:+ ": " +:+ json_dumps x) d)
          +:+ "}"
  end.

(** *** [re.findall] of the schema references: the literal
    [#/components/schemas/], then a group of one or more characters
    other than the double quote *)

Definition ref_prefix : string := "#/components/schemas/".

(** The longest prefix without a double quote: what the group takes. *)
Fixpoint take_unquoted (s : string) : string :=
  match s with
  | EmptyString => EmptyString
  | String c s' =>
      if Ascii.eqb c dquote then EmptyString else String c (take_unquoted s')
  end.

(** One attempt of the pattern at the start of [s]: the captured group. *)
Definition match_ref (s : string) : option string :=
  if String.prefix ref_prefix s then
    match take_unquoted (skip (String.length ref_prefix) s) with
    | EmptyString => None
    | name => Some name
    end
  else None.

Fixpoint findall_refs_from (pending : nat) (s : string) : list string :=
  match s with
  | EmptyString => []
  | String _ s' =>
      match pending with
      | S k => findall_refs_from k s'
      | O =>
          match match_ref s with
          | Some name =>
              name :: findall_refs_from
                        (String.length ref_prefix + String.length name - 1) s'
          | None => findall_refs_from 0 s'
          end
      end
  end.

Definition findall_refs (s : string) : list string := findall_refs_from 0 s.

(** *** The script: printing and exceptions *)

(** A computation appends to the lines printed so far and either raises or
    returns. *)
Definition M (A : Type) : Type := list msg → list msg * (exn + A).

#[export] Instance M_ret : MRet M := λ A a out, (out, inr a).

#[export] Instance M_bind : MBind M := λ A B k m out,
  match m out with
  | (out', inr a) => k a out'
  | (out', inl e) => (out', inl e)
  end.

Definition print (m : msg) : M unit := λ out, (out ++ [m], inr tt).

(** The result of a Python operation: raise or go on. *)
Definition lift {A} (r : exn + A) : M A := λ out, (out, r).

Fixpoint for_each {A} (l : list A) (body : A → M unit) : M unit :=
  match l with
  | [] => mret tt
  | x :: l' => body x ;; for_each l' body
  end.

Definition required_fields : list string := ["openapi"; "info"; "paths"].

(** Lines 44-49: the distinct references, then those that are no key (no
    element, no substring) of [schemas].  The order in which Python runs
    through a set is not fixed; the order of first appearance stands for
    it. *)
Definition missing_refs (spec schemas : pyval) : exn + list string :=
  let unique_refs := remove_dups (findall_refs (json_dumps spec)) in
  foldr (λ ref acc,
           match py_in ref schemas, acc with
           | inl e, _ => inl e
           | _, inl e => inl e
           | inr b, inr l => inr (if b then l else ref :: l)
           end)
        (inr []) unique_refs.

(** Lines 66-69 for one parameter. *)
Definition check_param (param : pyval) : M unit :=
  if is_dict param then
    schema ← lift (py_get param "schema" (PDict []));
    lift (py_in "default" schema) ≫= λ has : bool,
    if has then
      dflt ← lift (py_get schema "default" PNone);
      (if is_str dflt then mret tt else mret tt)
    else mret tt
  else mret tt.

(** Lines 62-69 for one operation. *)
Definition check_details (details : pyval) : M unit :=
  if is_dict details then
    params ← lift (py_get details "parameters" (PList []));
    params ← lift (py_iter params);
    for_each params check_param
  else mret tt.

(** Lines 60-69. *)
Definition check_paths (paths : pyval) : M unit :=
  items ← lift (py_items paths);
  for_each items (λ '(_, methods),
    ops ← lift (py_items methods);
    for_each ops (λ '(_, details), check_details details)).

(** Lines 51-54: a warning when some reference is missing. *)
Definition refs_msg (missing : list string) : msg :=
  match missing with
  | [] => MRefsValid
  | _ => MMissingRefs missing
  end.

(** Lines 31-73, behind the required-field check. *)
Definition check_rest (spec : pyval) : M bool :=
  paths ← lift (py_get spec "paths" (PDict []));
  n ← lift (py_len paths);
  print (MFoundPaths n);;
  components ← lift (py_get spec "components" (PDict []));
  schemas ← lift (py_get components "schemas" (PDict []));
  n ← lift (py_len schemas);
  print (MFoundSchemas n);;
  missing ← lift (missing_refs spec schemas);
  print (refs_msg missing);;
  check_paths paths;;
  print MDefaultsQuoted;;
  mret true.

(** Lines 24-29: the first absent field ends the function with [False]. *)
Fixpoint check_fields (spec : pyval) (fields : list string) (rest : M bool)
  : M bool :=
  match fields with
  | [] => print MFieldsPresent;; rest
  | field :: fields' =>
      lift (py_in field spec) ≫= λ present : bool,
      if present then check_fields spec fields' rest
      else print (MMissingField field);; mret false
  end.

(** Lines 11-73. *)
Definition validate_openapi_spec (file : load_result) : M bool :=
  print MValidating;;
  match file with
  | YAMLError => print MYamlError;; mret false
  | LoadFailure => lift (inl OSError)
  | Loaded spec =>
      print MYamlValid;;
      check_fields spec required_fields (check_rest spec)
  end.

(** Lines 6-85, the whole script: what it prints and its exit code.
    [yaml_importable] tells whether [import yaml] succeeds. *)
Definition script (yaml_importable : bool) (file : load_result)
  : list msg * nat :=
  if yaml_importable then
    match validate_openapi_spec file [] with
    | (out, inr true) => (out ++ [MSpecValid], 0)
    | (out, inr false) => (out ++ [MSpecHasIssues], 1)
    | (out, inl e) => (out ++ [MValidationError e], 1)
    end
  else ([MSkipped], 0).

Definition stdout (yaml_importable : bool) (file : load_result) : list msg :=
  (script yaml_importable file).1.

Definition exit_code (yaml_importable : bool) (file : load_result) : nat :=
  (script yaml_importable file).2.

(** *** Vocabulary of the properties *)

(** The loaded document is a mapping that has the key [field]. *)
Definition has_field (spec : pyval) (field : string) : bool :=
  match spec with
  | PDict d => bool_decide (is_Some (dict_get d field))
  | _ => false
  end.

(** Values [len] accepts. *)
Definition sized (v : pyval) : bool :=
  match v with PDict _ | PList _ | PStr _ => true | _ => false end.

(** The shapes under which lines 60-69 run through without an exception:
    [paths] maps each path to a mapping; where an operation is a mapping,
    its [parameters] can be iterated; where a parameter is a mapping, its
    [schema] is a mapping, or a sequence or string without [default]. *)
Definition schema_ok (schema : pyval) : bool :=
  match schema with
  | PDict _ => true
  | PList l => negb (existsb (is_pstr "default") l)
  | PStr s => negb (contains "default" s)
  | _ => false
  end.

Definition param_ok (param : pyval) : bool :=
  match param with
  | PDict pd => schema_ok (default (PDict []) (dict_get pd "schema"))
  | _ => true
  end.

Definition details_ok (details : pyval) : bool :=
  match details with
  | PDict dd =>
      match default (PList []) (dict_get dd "parameters") with
      | PList l => forallb param_ok l
      | PDict _ | PStr _ => true
      | _ => false
      end
  | _ => true
  end.

Definition methods_ok (methods : pyval) : bool :=
  match methods with
  | PDict md => forallb (λ kv, details_ok kv.2) md
  | _ => false
  end.

Definition paths_ok (paths : pyval) : bool :=
  match paths with
  | PDict pd => forallb (λ kv, methods_ok kv.2) pd
  | _ => false
  end.

(** [components], when present, is a mapping whose [schemas], when
    present, has a length. *)
Definition components_ok (components : pyval) : bool :=
  match components with
  | PDict cd => sized (default (PDict []) (dict_get cd "schemas"))
  | _ => false
  end.

Definition paths_of (d : list (string * pyval)) : pyval :=
  default (PDict []) (dict_get d "paths").

Definition components_of (d : list (string * pyval)) : pyval :=
  default (PDict []) (dict_get d "components").

Definition schemas_of (d : list (string * pyval)) : pyval :=
  match components_of d with
  | PDict cd => default (PDict []) (dict_get cd "schemas")
  | _ => PNone
  end.

(** A document on which no check raises and no required field is absent. *)
Definition well_formed (spec : pyval) : bool :=
  match spec with
  | PDict d =>
      forallb (has_field spec) required_fields
      && paths_ok (paths_of d) && components_ok (components_of d)
  | _ => false
  end.

Definition loads_well_formed (file : load_result) : bool :=
  match file with
  | Loaded spec => well_formed spec
  | _ => false
  end.

(** [name] is referenced somewhere in the document and is not defined under
    [components.schemas]. *)
Definition unresolved_ref (spec : pyval) (name : string) : Prop :=
  name ∈ findall_refs (json_dumps spec)
  ∧ ∃ d, spec = PDict d ∧ py_in name (schemas_of d) = inr false.

(** A computation that prints nothing and returns exactly when [ok]. *)
Definition silent (ok : bool) (m : M unit) : Prop :=
  ∀ out, if ok then m out = (out, inr tt) else ∃ e, m out = (out, inl e).

End Validate.

(** ** Documents used as examples *)

Module Examples.
Import Py Validate.

(** The worked example of the specification. *)
Definition doc6 : list string :=
  ["a:"; "/x:"; "  foo"; "/y:"; "/x:"; "  bar"; "/z:"].

(** A billing path defined three times: the span of the second definition
    runs over the third. *)
Definition billing_thrice : list string :=
  ["paths:";
   "  /api/billing/plans:"; "    get: a";
   "  /api/billing/plans:"; "    get: b";
   "  /api/billing/plans:"; "    get: c"].

(** A document whose [paths] section is empty: the key is there, its value
    is null. *)
Definition empty_paths_doc : pyval :=
  PDict [("openapi", PStr "3.0.0");
         ("info", PDict [("title", PStr "API")]);
         ("paths", PNone)].

(** A document whose only issue is a reference to a schema that
    [components.schemas] does not define. *)
Definition lang_param : pyval :=
  PDict [("name", PStr "lang");
         ("schema", PDict [("$ref", PStr "#/components/schemas/Lang")])].

Definition plans_path : pyval :=
  PDict [("get", PDict [("parameters", PList [lang_param])])].

Definition dangling_ref_doc : pyval :=
  PDict [("openapi", PStr "3.0.0");
         ("info", PDict [("title", PStr "API")]);
         ("paths", PDict [("/plans", plans_path)]);
         ("components",
          PDict [("schemas", PDict [("Plan", PDict [("type", PStr "object")])])])].

(** A webhook path defined twice, followed by the only definition of the
    billing path, then a comment heading. *)
Definition webhook_then_billing : string :=
  join_nl ["# Webhooks";
           "/api/webhooks/dodo:"; "  post: a";
           "/api/webhooks/dodo:"; "  post: b";
           "/api/billing/plans:"; "  get: c";
           "# End"].


Definition default_en : string := "  default: en".

Definition default_enable : string := "  default: enable".

Definition default_en_quoted : string :=
  "  default: " +:+ String dquote ("en" +:+ String dquote EmptyString).

End Examples.

Import Py Fix Validate Examples.

(** ** Index-list view of the comprehensions *)

Section IndexView.
Context {A : Type}.

Lemma filter_ext_in (P Q : A → Prop) `{!∀ x, Decision (P x)}
    `{!∀ x, Decision (Q x)} (l : list A) :
  (∀ x, x ∈ l → P x ↔ Q x) → filter P l = filter Q l.
Proof.
  induction l as [|a l IH]; intros Hx; [done|].
  rewrite !filter_cons.
  rewrite IH by (intros x Hin; apply Hx; by right).
  destruct (decide (P a)) as [HP|HP], (decide (Q a)) as [HQ|HQ];
    try done; exfalso; pose proof (Hx a (list_elem_of_here _ _)); tauto.
Qed.

Lemma enumerate_snoc (l : list A) (x : A) :
  enumerate (l ++ [x]) = enumerate l ++ [(length l, x)].
Proof.
  unfold enumerate. rewrite imap_app. simpl.
  by rewrite Nat.add_0_r.
Qed.

Lemma length_enumerate (l : list A) : length (enumerate l) = length l.
Proof. apply length_imap. Qed.
Lemma filter_Forall_id (P : A → Prop) `{!∀ x, Decision (P x)} (l : list A) :
  Forall P l → filter P l = l.
Proof.
  induction 1 as [|a l Ha _ IH]; [done|].
  rewrite filter_cons, IH. by destruct (decide (P a)).
Qed.

Lemma filter_Forall_nil (P : A → Prop) `{!∀ x, Decision (P x)} (l : list A) :
  Forall (λ x, ¬ P x) l → filter P l = [].
Proof.
  induction 1 as [|a l Ha _ IH]; [done|].
  rewrite filter_cons, IH. by destruct (decide (P a)).
Qed.

Lemma filter_fmap_comm {B} (f : B → A) (P : A → Prop)
    `{!∀ x, Decision (P x)} (l : list B) :
  filter P (f <$> l) = f <$> filter (λ y, P (f y)) l.
Proof.
  induction l as [|b l IH]; [done|].
  rewrite fmap_cons, !filter_cons, IH. by destruct (decide (P (f b))).
Qed.

Lemma length_filter_complement (P : A → Prop) `{!∀ x, Decision (P x)}
    (l : list A) :
  length (filter P l) + length (filter (λ x, ¬ P x) l) = length l.
Proof. rewrite <-length_app. by rewrite filter_app_complement. Qed.

End IndexView.

Section RemoverFacts.
Implicit Types (lines : list string) (marker is_boundary : string → bool).
Implicit Types (rm : gset nat).

Lemma line_at_lookup lines i l : lines !! i = Some l → line_at lines i = l.
Proof. unfold line_at. by intros ->. Qed.

Lemma line_at_app_l lines x i :
  i < length lines → line_at (lines ++ [x]) i = line_at lines i.
Proof. intros Hi. unfold line_at. by rewrite lookup_app_l. Qed.

Lemma line_at_snoc lines x : line_at (lines ++ [x]) (length lines) = x.
Proof. unfold line_at. by rewrite list_lookup_middle. Qed.

(** [match_indices] lists, in increasing order, the indices whose line
    satisfies the marker test. *)
Lemma match_indices_seq marker lines :
  match_indices marker lines
  = filter (λ i, marker (line_at lines i) = true) (seq 0 (length lines)).
Proof.
  unfold match_indices.
  induction lines as [|x lines IH] using rev_ind; [done|].
  rewrite enumerate_snoc, length_app, Nat.add_1_r, seq_S, !filter_app,
    fmap_app, IH. simpl. f_equal.
  - apply filter_ext_in. intros i Hi. apply elem_of_seq in Hi.
    rewrite line_at_app_l by lia. done.
  - rewrite !filter_cons, !filter_nil. simpl. rewrite line_at_snoc.
    by destruct (decide (marker x = true)).
Qed.

(** [cleaned_lines] keeps, in order, the lines whose index is unmarked. *)
Lemma cleaned_lines_seq lines rm :
  cleaned_lines lines rm
  = line_at lines <$> filter (λ i, i ∉ rm) (seq 0 (length lines)).
Proof.
  unfold cleaned_lines.
  induction lines as [|x lines IH] using rev_ind; [done|].
  rewrite enumerate_snoc, length_app, Nat.add_1_r, seq_S, !filter_app,
    !fmap_app, IH. simpl. f_equal.
  - apply list_fmap_ext. intros ? i Hi%list_elem_of_lookup_2.
    apply list_elem_of_filter in Hi as [_ Hi]. apply elem_of_seq in Hi.
    symmetry. apply line_at_app_l. lia.
  - rewrite !filter_cons, !filter_nil. simpl.
    destruct (decide (length lines ∉ rm)); [|done].
    simpl. by rewrite line_at_snoc.
Qed.

(** *** The forward scan for the end of a section *)

Lemma find_seq_first (P : nat → bool) (a len : nat) :
  match List.find P (seq a len) with
  | Some j => (a ≤ j < a + len) ∧ P j = true ∧ ∀ i, a ≤ i < j → P i = false
  | None => ∀ i, a ≤ i < a + len → P i = false
  end.
Proof.
  revert a. induction len as [|len IH]; intros a; simpl.
  - intros i Hi. lia.
  - destruct (P a) eqn:Ha.
    + split; [lia|]. split; [done|]. intros i Hi. lia.
    + specialize (IH (S a)). destruct (List.find P (seq (S a) len)) as [j|].
      * destruct IH as (Hj & HPj & Hmin). split; [lia|]. split; [done|].
        intros i Hi. destruct (decide (i = a)) as [->|]; [done|].
        apply Hmin. lia.
      * intros i Hi. destruct (decide (i = a)) as [->|]; [done|].
        apply IH. lia.
Qed.

(** [find_end] returns the index of the first boundary line strictly after
    [start_idx], or the length of the document when there is none. *)
Lemma find_end_spec is_boundary lines start_idx :
  start_idx < length lines →
  let end_idx := find_end is_boundary lines start_idx in
  start_idx < end_idx ≤ length lines
  ∧ (∀ j, start_idx < j < end_idx → is_boundary (line_at lines j) = false)
  ∧ (end_idx < length lines → is_boundary (line_at lines end_idx) = true).
Proof.
  intros Hlt. unfold find_end.
  pose proof (find_seq_first (λ j, is_boundary (line_at lines j))
                (S start_idx) (length lines - S start_idx)) as H.
  destruct (List.find _ _) as [j|]; simpl.
  - destruct H as (Hj & HPj & Hmin). split; [lia|]. split; [|done].
    intros i Hi. apply Hmin. lia.
  - split; [lia|]. split; [|lia]. intros i Hi. apply H. lia.
Qed.

Lemma find_end_gt is_boundary lines start_idx :
  start_idx < length lines →
  start_idx < find_end is_boundary lines start_idx ≤ length lines.
Proof. intros H. by destruct (find_end_spec is_boundary lines start_idx H). Qed.

(** *** The removal set *)

Lemma elem_of_range_set (start stop k : nat) :
  k ∈ range_set start stop ↔ start ≤ k < stop.
Proof. unfold range_set. rewrite elem_of_set_seq. lia. Qed.

Lemma mark_duplicates_foldl is_boundary lines indices rm :
  mark_duplicates is_boundary lines indices rm
  = foldl (λ rm start_idx,
             rm ∪ range_set start_idx (find_end is_boundary lines start_idx))
          rm (drop 1 indices).
Proof.
  unfold mark_duplicates. case_decide as Hlen; [done|].
  destruct indices as [|? [|? ?]]; simpl in *; try done. lia.
Qed.

Lemma elem_of_foldl_union {B} (f : B → gset nat) (l : list B) rm k :
  k ∈ foldl (λ rm x, rm ∪ f x) rm l ↔ k ∈ rm ∨ ∃ x, x ∈ l ∧ k ∈ f x.
Proof.
  revert rm. induction l as [|x l IH]; intros rm; simpl.
  - split; [by left|]. intros [?|(x & Hx & _)]; [done|]. by apply elem_of_nil in Hx.
  - rewrite IH, elem_of_union. split.
    + intros [[?|?]|(y & Hy & ?)]; [by left|right; exists x|right; exists y];
        split; try done; [by left|by right].
    + intros [?|(y & Hy & ?)]; [by left; left|].
      apply elem_of_cons in Hy as [->|Hy]; [by left; right|].
      right. by exists y.
Qed.

Lemma elem_of_mark_duplicates is_boundary lines indices rm k :
  k ∈ mark_duplicates is_boundary lines indices rm
  ↔ k ∈ rm ∨ ∃ m, m ∈ drop 1 indices ∧ m ≤ k < find_end is_boundary lines m.
Proof.
  rewrite mark_duplicates_foldl, elem_of_foldl_union.
  by setoid_rewrite elem_of_range_set.
Qed.

(** *** The matches, in order *)

Lemma filter_seq_head (P : nat → Prop) `{!∀ i, Decision (P i)} a n m0 rest :
  filter P (seq a n) = m0 :: rest →
  a ≤ m0 < a + n ∧ P m0 ∧ (∀ i, a ≤ i < m0 → ¬ P i)
  ∧ rest = filter P (seq (S m0) (a + n - S m0)).
Proof.
  revert a. induction n as [|n IH]; intros a; simpl; [done|].
  rewrite filter_cons. destruct (decide (P a)) as [Ha|Ha].
  - intros [= <- <-]. split; [lia|]. split; [done|]. split; [intros; lia|].
    do 2 f_equal. lia.
  - intros Hf. apply IH in Hf as (? & ? & Hmin & ->).
    split; [lia|]. split; [done|]. split.
    + intros i Hi. destruct (decide (i = a)) as [->|]; [done|]. apply Hmin. lia.
    + do 2 f_equal. lia.
Qed.

Lemma match_indices_lt marker lines m :
  m ∈ match_indices marker lines
  ↔ m < length lines ∧ marker (line_at lines m) = true.
Proof.
  rewrite match_indices_seq, list_elem_of_filter, elem_of_seq. intuition lia.
Qed.

Lemma match_indices_head marker lines m0 rest :
  match_indices marker lines = m0 :: rest →
  m0 < length lines ∧ marker (line_at lines m0) = true
  ∧ (∀ i, i < m0 → marker (line_at lines i) ≠ true)
  ∧ (∀ m, m ∈ rest → m0 < m < length lines ∧ marker (line_at lines m) = true).
Proof.
  rewrite match_indices_seq. intros H.
  apply filter_seq_head in H as (H0 & HP & Hmin & ->).
  split; [lia|]. split; [done|]. split; [intros i Hi; apply Hmin; lia|].
  intros m Hm. apply list_elem_of_filter in Hm as [? Hm].
  apply elem_of_seq in Hm. split; [lia|done].
Qed.

Lemma later_match_gt marker lines m :
  m ∈ drop 1 (match_indices marker lines) →
  ∃ m0, head (match_indices marker lines) = Some m0
        ∧ m0 < m < length lines ∧ marker (line_at lines m) = true.
Proof.
  destruct (match_indices marker lines) as [|m0 rest] eqn:E; simpl.
  - by intros ?%elem_of_nil.
  - rewrite drop_0. intros Hm. exists m0. split; [done|].
    by apply (match_indices_head _ _ _ _ E).
Qed.

Lemma length_match_indices marker lines :
  length (match_indices marker lines) = occurrences marker lines.
Proof.
  unfold match_indices, occurrences. rewrite length_fmap.
  induction lines as [|x lines IH] using rev_ind; [done|].
  rewrite enumerate_snoc, !filter_app, !length_app, IH. f_equal.
  rewrite !filter_cons, !filter_nil. simpl.
  by destruct (decide (marker x = true)).
Qed.

(** Membership in the removal set of one pass. *)
Lemma elem_of_removal_set lines marker is_boundary k :
  k ∈ removal_set lines marker is_boundary
  ↔ ∃ m, m ∈ drop 1 (match_indices marker lines)
         ∧ m ≤ k < find_end is_boundary lines m.
Proof.
  unfold removal_set. rewrite elem_of_mark_duplicates.
  split; [intros [?%not_elem_of_empty|?]; done|by right].
Qed.

Lemma removal_set_lt lines marker is_boundary k :
  k ∈ removal_set lines marker is_boundary → k < length lines.
Proof.
  rewrite elem_of_removal_set. intros (m & Hm & Hk).
  apply later_match_gt in Hm as (m0 & _ & Hm & _).
  pose proof (find_end_gt is_boundary lines m). lia.
Qed.

(** The first match and everything before it stay unmarked. *)
Lemma removal_set_after_first lines marker is_boundary m0 k :
  head (match_indices marker lines) = Some m0 →
  k ∈ removal_set lines marker is_boundary → m0 < k.
Proof.
  intros Hhd. rewrite elem_of_removal_set. intros (m & Hm & Hk).
  apply later_match_gt in Hm as (m0' & Hhd' & Hm & _).
  rewrite Hhd in Hhd'. injection Hhd' as <-. lia.
Qed.

Lemma first_match_unmarked lines marker is_boundary m0 :
  head (match_indices marker lines) = Some m0 →
  m0 ∉ removal_set lines marker is_boundary.
Proof.
  intros Hhd Hin. apply (removal_set_after_first _ _ _ m0) in Hin; [lia|done].
Qed.

(** Every match after the first is marked. *)
Lemma later_match_marked lines marker is_boundary m :
  m ∈ drop 1 (match_indices marker lines) →
  m ∈ removal_set lines marker is_boundary.
Proof.
  intros Hm. apply elem_of_removal_set. exists m. split; [done|].
  apply later_match_gt in Hm as (m0 & _ & Hm & _).
  pose proof (find_end_gt is_boundary lines m). lia.
Qed.

(** *** The rewritten document *)

Lemma fmap_line_at_seq lines k :
  k ≤ length lines → line_at lines <$> seq 0 k = take k lines.
Proof.
  induction k as [|k IH]; intros Hk; [done|].
  rewrite seq_S, fmap_app, IH by lia. simpl.
  destruct (lookup_lt_is_Some_2 lines k) as [x Hx]; [lia|].
  rewrite (take_S_r _ _ x) by done. by rewrite (line_at_lookup _ _ _ Hx).
Qed.

Lemma cleaned_lines_empty lines : cleaned_lines lines ∅ = lines.
Proof.
  rewrite cleaned_lines_seq, filter_Forall_id.
  - rewrite fmap_line_at_seq by done. apply firstn_all.
  - apply Forall_forall. intros i _. apply not_elem_of_empty.
Qed.

(** The guard of line 73 only skips a rewrite that would change nothing. *)
Lemma remove_duplicates_cleaned lines marker is_boundary :
  remove_duplicates lines marker is_boundary
  = cleaned_lines lines (removal_set lines marker is_boundary).
Proof.
  unfold remove_duplicates. case_decide as Hrm; [|done].
  by rewrite Hrm, cleaned_lines_empty.
Qed.

Lemma remove_duplicates_seq lines marker is_boundary :
  remove_duplicates lines marker is_boundary
  = line_at lines <$> filter (λ i, i ∉ removal_set lines marker is_boundary)
                             (seq 0 (length lines)).
Proof. by rewrite remove_duplicates_cleaned, cleaned_lines_seq. Qed.

(** Among the unmarked indices, only the first match holds the marker. *)
Lemma surviving_matches lines marker is_boundary :
  filter (λ i, marker (line_at lines i) = true)
         (filter (λ i, i ∉ removal_set lines marker is_boundary)
                 (seq 0 (length lines)))
  = take 1 (match_indices marker lines).
Proof.
  rewrite list_filter_filter.
  rewrite (list_filter_iff _
             (λ i, (i ∉ removal_set lines marker is_boundary)
                   ∧ marker (line_at lines i) = true)) by (intros; tauto).
  rewrite <-list_filter_filter, <-match_indices_seq.
  destruct (match_indices marker lines) as [|m0 rest] eqn:E; [done|].
  rewrite filter_cons. simpl. rewrite take_0.
  destruct (decide _) as [_|Hin].
  - f_equal. apply filter_Forall_nil, Forall_forall. intros m Hm Hnot.
    apply Hnot, later_match_marked. by rewrite E.
  - exfalso. apply Hin. intros Hm0.
    apply (removal_set_after_first _ _ _ m0) in Hm0; [lia|by rewrite E].
Qed.

Lemma occurrences_remove_duplicates lines marker is_boundary :
  occurrences marker (remove_duplicates lines marker is_boundary)
  = length (take 1 (match_indices marker lines)).
Proof.
  unfold occurrences.
  rewrite remove_duplicates_seq, filter_fmap_comm, length_fmap.
  by rewrite surviving_matches.
Qed.

(** The document is untouched up to and including the first match. *)
Lemma remove_duplicates_take_first lines marker is_boundary m0 :
  head (match_indices marker lines) = Some m0 →
  take (S m0) (remove_duplicates lines marker is_boundary)
  = take (S m0) lines.
Proof.
  intros Hhd.
  assert (m0 < length lines) as Hlt.
  { destruct (match_indices marker lines) as [|? rest] eqn:E; [done|].
    simpl in Hhd. injection Hhd as ->.
    by destruct (match_indices_head _ _ _ _ E) as [? _]. }
  rewrite remove_duplicates_seq.
  replace (length lines) with (S m0 + (length lines - S m0)) at 1 by lia.
  rewrite seq_app, filter_app, fmap_app, filter_Forall_id.
  - rewrite take_app_length'; [|by rewrite length_fmap, length_seq].
    apply fmap_line_at_seq. lia.
  - apply Forall_forall. intros i Hi%elem_of_seq Hrm.
    apply (removal_set_after_first _ _ _ m0) in Hrm; [lia|done].
Qed.

(** Exactly the marked indices disappear, each once. *)
Lemma length_cleaned_lines lines rm :
  (∀ k, k ∈ rm → k < length lines) →
  length (cleaned_lines lines rm) + size rm = length lines.
Proof.
  intros Hrm. rewrite cleaned_lines_seq, length_fmap.
  assert (size rm = length (filter (λ i, i ∈ rm) (seq 0 (length lines)))) as ->.
  { rewrite <-(size_list_to_set (C:=gset nat)) by (apply NoDup_filter, NoDup_seq).
    f_equal. apply set_eq. intros k.
    rewrite elem_of_list_to_set, list_elem_of_filter, elem_of_seq.
    split; [|tauto]. intros Hk. split; [done|]. specialize (Hrm k Hk). lia. }
  rewrite Nat.add_comm.
  rewrite (length_filter_complement (λ i, i ∈ rm)). apply length_seq.
Qed.

Lemma size_range_set (start stop : nat) :
  size (range_set start stop) = stop - start.
Proof. unfold range_set. apply size_set_seq. Qed.

Lemma size_foldl_spans (f : nat → nat) (l : list nat) rm :
  size (foldl (λ rm x, rm ∪ range_set x (f x)) rm l)
  ≤ size rm + sum_list ((λ x, f x - x) <$> l).
Proof.
  revert rm. induction l as [|x l IH]; intros rm; simpl; [lia|].
  etrans; [apply IH|].
  assert (size (rm ∪ range_set x (f x)) ≤ size rm + (f x - x)) as Hle.
  2:{ unfold fmap in *. lia. }
  rewrite size_union_alt, <-size_range_set.
  apply Nat.add_le_mono_l. apply subseteq_size.
  intros k Hk. by apply elem_of_difference in Hk as [? _].
Qed.

Lemma size_removal_set lines marker is_boundary :
  size (removal_set lines marker is_boundary)
  ≤ span_lengths (duplicate_spans lines marker is_boundary).
Proof.
  unfold removal_set, span_lengths, duplicate_spans.
  rewrite mark_duplicates_foldl.
  etrans; [apply (size_foldl_spans (find_end is_boundary lines))|].
  rewrite size_empty, <-list_fmap_compose. done.
Qed.

Lemma later_occurrence_iff marker lines m :
  m ∈ drop 1 (match_indices marker lines) ↔ later_occurrence marker lines m.
Proof.
  unfold later_occurrence. split.
  - intros Hm. destruct (later_match_gt _ _ _ Hm) as (m0 & Hhd & Hlt & HM).
    split; [lia|]. split; [done|]. exists m0. split; [lia|].
    destruct (match_indices marker lines) as [|? rest] eqn:E; [done|].
    simpl in Hhd. injection Hhd as ->.
    by destruct (match_indices_head _ _ _ _ E) as (_ & ? & _).
  - intros (Hlt & HM & i & Hi & HMi).
    assert (m ∈ match_indices marker lines) as Hin
      by by apply match_indices_lt.
    destruct (match_indices marker lines) as [|m0 rest] eqn:E;
      [by apply elem_of_nil in Hin|].
    simpl. rewrite drop_0.
    apply elem_of_cons in Hin as [->|Hin]; [|done].
    destruct (match_indices_head _ _ _ _ E) as (_ & _ & Hmin & _).
    by destruct (Hmin i Hi).
Qed.

Lemma is_boundary_index_find_end is_boundary lines m :
  m < length lines →
  is_boundary_index is_boundary lines m (find_end is_boundary lines m).
Proof. apply find_end_spec. Qed.

Lemma is_boundary_index_unique is_boundary lines m e :
  is_boundary_index is_boundary lines m e →
  e = find_end is_boundary lines m.
Proof.
  intros (He & Hno & Hyes).
  destruct (find_end_spec is_boundary lines m) as (He' & Hno' & Hyes'); [lia|].
  set (e' := find_end is_boundary lines m) in *.
  destruct (Nat.lt_trichotomy e e') as [Hlt|[->|Hgt]]; [|done|].
  - rewrite Hno' in Hyes by lia. discriminate Hyes. lia.
  - rewrite Hno in Hyes' by lia. discriminate Hyes'. lia.
Qed.

Lemma find_ext_in {A} (f g : A → bool) (l : list A) :
  (∀ x, x ∈ l → f x = g x) → List.find f l = List.find g l.
Proof.
  induction l as [|a l IH]; intros Hfg; [done|]. simpl.
  rewrite <-(Hfg a) by left. rewrite IH; [done|].
  intros x Hx. apply Hfg. by right.
Qed.

(** The scan never reads the line it starts from. *)
Lemma find_end_insert is_boundary lines m x :
  find_end is_boundary (<[m:=x]> lines) m = find_end is_boundary lines m.
Proof.
  unfold find_end. rewrite length_insert.
  erewrite find_ext_in; [done|].
  intros j Hj%elem_of_seq. simpl. unfold line_at.
  by rewrite list_lookup_insert_ne by lia.
Qed.

Lemma match_indices_remove_duplicates lines marker is_boundary :
  match_indices marker (remove_duplicates lines marker is_boundary)
  = take 1 (match_indices marker lines).
Proof.
  pose proof (occurrences_remove_duplicates lines marker is_boundary) as Hocc.
  rewrite <-length_match_indices in Hocc.
  destruct (match_indices marker lines) as [|m0 rest] eqn:E.
  - simpl in *. by apply nil_length_inv.
  - simpl in *. rewrite take_0 in *. simpl in Hocc.
    pose proof (remove_duplicates_take_first lines marker is_boundary m0) as Htk.
    rewrite E in Htk. specialize (Htk eq_refl).
    destruct (match_indices_head _ _ _ _ E) as (Hlt & HM & _).
    destruct (lookup_lt_is_Some_2 lines m0 Hlt) as [x Hx].
    assert (remove_duplicates lines marker is_boundary !! m0 = Some x) as Hx'.
    { rewrite <-(lookup_take_lt _ (S m0)) by lia. rewrite Htk.
      by rewrite lookup_take_lt by lia. }
    assert (m0 ∈ match_indices marker (remove_duplicates lines marker is_boundary))
      as Hin.
    { apply match_indices_lt. split; [by eapply lookup_lt_Some|].
      rewrite (line_at_lookup _ _ _ Hx'). by rewrite <-(line_at_lookup _ _ _ Hx). }
    destruct (match_indices marker (remove_duplicates _ _ _)) as [|a [|? ?]];
      simpl in Hocc; try done.
    apply list_elem_of_singleton in Hin. by subst.
Qed.

(** When every marker line is itself a boundary line, consecutive spans do
    not overlap and the marked indices number the sum of the span lengths. *)
Lemma size_foldl_disjoint_spans marker is_boundary lines :
  (∀ l, marker l = true → is_boundary l = true) →
  ∀ (l : list nat) a n rm,
    l = filter (λ i, marker (line_at lines i) = true) (seq a n) →
    a + n ≤ length lines →
    (∀ k m, k ∈ rm → m ∈ l → k < m) →
    size (foldl (λ rm x, rm ∪ range_set x (find_end is_boundary lines x)) rm l)
    = size rm + sum_list ((λ x, find_end is_boundary lines x - x) <$> l).
Proof.
  intros Hmb l. induction l as [|x l IH]; intros a n rm Hl Hn Hbelow; simpl.
  - lia.
  - symmetry in Hl. apply filter_seq_head in Hl as (Hx & HMx & _ & Hl).
    destruct (find_end_spec is_boundary lines x) as (He & Hno & _); [lia|].
    rewrite (IH (S x) (a + n - S x) _ Hl); [| lia |].
    + rewrite size_union, size_range_set; [unfold fmap; lia|].
      intros k Hk [Hk1 Hk2]%elem_of_range_set.
      specialize (Hbelow k x Hk (list_elem_of_here _ _)). lia.
    + intros k m Hk Hm. apply elem_of_union in Hk as [Hk|Hk].
      * etrans; [apply (Hbelow k x Hk); left|].
        rewrite Hl in Hm. apply list_elem_of_filter in Hm as [_ Hm%elem_of_seq].
        lia.
      * apply elem_of_range_set in Hk.
        assert (find_end is_boundary lines x ≤ m); [|lia].
        rewrite Hl in Hm. apply list_elem_of_filter in Hm as [HMm Hm%elem_of_seq].
        apply Nat.nlt_ge. intros Hlt.
        pose proof (Hmb _ HMm) as Hb. rewrite Hno in Hb by lia. done.
Qed.

Lemma remove_duplicates_unchanged lines marker is_boundary :
  occurrences marker lines < 2 →
  remove_duplicates lines marker is_boundary = lines.
Proof.
  intros H. unfold remove_duplicates, removal_set, mark_duplicates.
  rewrite length_match_indices.
  destruct (decide (1 < occurrences marker lines)); [lia|].
  by rewrite decide_True.
Qed.

Lemma no_later_occurrence_after lines marker is_boundary m :
  ¬ later_occurrence marker (remove_duplicates lines marker is_boundary) m.
Proof.
  rewrite <-later_occurrence_iff, match_indices_remove_duplicates.
  destruct (match_indices marker lines); simpl; rewrite ?take_0, ?drop_0;
    apply not_elem_of_nil.
Qed.

Lemma elem_of_duplicate_spans lines marker is_boundary k :
  k ∈ removal_set lines marker is_boundary
  ↔ ∃ sp, sp ∈ duplicate_spans lines marker is_boundary ∧ sp.1 ≤ k < sp.2.
Proof.
  rewrite elem_of_removal_set. unfold duplicate_spans. split.
  - intros (m & Hm & Hk). exists (m, find_end is_boundary lines m).
    split; [|done]. apply list_elem_of_fmap. by exists m.
  - intros (sp & Hsp & Hk). apply list_elem_of_fmap in Hsp as (m & -> & Hm).
    by exists m.
Qed.

Lemma size_removal_set_disjoint lines marker is_boundary :
  (∀ l, marker l = true → is_boundary l = true) →
  size (removal_set lines marker is_boundary)
  = span_lengths (duplicate_spans lines marker is_boundary).
Proof.
  intros Hmb. unfold removal_set, span_lengths, duplicate_spans.
  rewrite mark_duplicates_foldl, <-list_fmap_compose.
  destruct (match_indices marker lines) as [|m0 rest] eqn:E; [done|].
  simpl. rewrite drop_0. rewrite match_indices_seq in E.
  apply filter_seq_head in E as (Hm0 & _ & _ & Hrest).
  rewrite (size_foldl_disjoint_spans marker is_boundary lines Hmb rest
             (S m0) (0 + length lines - S m0) ∅ Hrest).
  - by rewrite size_empty.
  - lia.
  - intros k m Hk. by apply not_elem_of_empty in Hk.
Qed.

(** *** The two passes of [fix_api_spec] are instances of the one pass *)

Lemma match_indices_snoc marker lines x :
  match_indices marker (lines ++ [x])
  = match_indices marker lines ++ (if marker x then [length lines] else []).
Proof.
  unfold match_indices.
  rewrite enumerate_snoc, filter_app, fmap_app. f_equal.
  rewrite filter_cons, filter_nil. simpl.
  destruct (decide (marker x = true)) as [->|Hn]; [done|].
  by destruct (marker x).
Qed.

Lemma collect_indices_match lines :
  collect_indices lines
  = (match_indices is_billing lines, match_indices is_webhook_only lines).
Proof.
  unfold collect_indices.
  induction lines as [|x lines IH] using rev_ind; [done|].
  rewrite enumerate_snoc, foldl_app, IH, !match_indices_snoc. simpl.
  unfold is_webhook_only.
  destruct (is_billing x), (is_webhook x); simpl; by rewrite ?app_nil_r.
Qed.

Lemma mark_duplicates_union is_boundary lines indices rm :
  mark_duplicates is_boundary lines indices rm
  = rm ∪ mark_duplicates is_boundary lines indices ∅.
Proof.
  apply set_eq. intros k.
  rewrite elem_of_union, !elem_of_mark_duplicates.
  split; [intros [?|?]; auto|].
  intros [?|[?%not_elem_of_empty|?]]; by auto.
Qed.

Lemma lines_to_remove_union lines :
  lines_to_remove lines
  = removal_set lines is_billing billing_boundary
    ∪ removal_set lines is_webhook_only webhook_boundary.
Proof.
  unfold lines_to_remove, removal_set. rewrite collect_indices_match. simpl.
  apply mark_duplicates_union.
Qed.

End RemoverFacts.



(** ** The validator: when it raises and what it prints *)

Section ValidatorFacts.
Import Validate.

Lemma silent_ret : silent true (mret tt).
Proof. by intros out. Qed.

Lemma silent_raise e : silent false (lift (inl e)).
Proof. intros out. by exists e. Qed.

Lemma for_each_silent {A} (ok : A → bool) (body : A → M unit) (l : list A) :
  (∀ x, x ∈ l → silent (ok x) (body x)) →
  silent (forallb ok l) (for_each l body).
Proof.
  induction l as [|x l IH]; intros Hbody out; simpl; [done|].
  unfold mbind, M_bind.
  pose proof (Hbody x (list_elem_of_here _ _) out) as Hx.
  destruct (ok x); simpl.
  - rewrite Hx. apply IH. intros y Hy. apply Hbody. by right.
  - destruct Hx as [e ->]. by exists e.
Qed.

Lemma check_param_silent param : silent (param_ok param) (check_param param).
Proof.
  intros out. unfold check_param, param_ok.
  destruct param as [| | | | |pd]; simpl; try done.
  unfold mbind, M_bind, lift. simpl.
  destruct (default (PDict []) (dict_get pd "schema")) as [| | |s|l|sd];
    simpl; try by eexists.
  - destruct (contains "default" s); simpl; [by eexists|done].
  - destruct (existsb (is_pstr "default") l); simpl; [by eexists|done].
  - destruct (bool_decide _); simpl; [|done].
    by destruct (is_str _).
Qed.

Lemma for_each_params_silent l :
  silent (forallb param_ok l) (for_each l check_param).
Proof. apply for_each_silent. intros x _. apply check_param_silent. Qed.

Lemma param_ok_chars s : forallb param_ok (chars s) = true.
Proof. induction s; simpl; [done|by rewrite IHs]. Qed.

Lemma param_ok_keys (ks : list string) : forallb param_ok (PStr <$> ks) = true.
Proof. induction ks as [|k ks IH]; [done|]. rewrite fmap_cons. exact IH. Qed.

Lemma check_details_silent details :
  silent (details_ok details) (check_details details).
Proof.
  intros out. unfold check_details, details_ok.
  destruct details as [| | | | |dd]; simpl; try done.
  unfold mbind, M_bind, lift. simpl.
  destruct (default (PList []) (dict_get dd "parameters")) as [| | |s|l|pd];
    simpl; try by eexists.
  - pose proof (for_each_params_silent (chars s) out) as H.
    by rewrite param_ok_chars in H.
  - apply for_each_params_silent.
  - pose proof (for_each_params_silent (PStr <$> pd.*1) out) as H.
    by rewrite param_ok_keys in H.
Qed.

Lemma check_methods_silent (methods : pyval) :
  silent (methods_ok methods)
    (ops ← lift (py_items methods);
     for_each ops (λ '(_, details), check_details details)).
Proof.
  intros out. unfold methods_ok.
  destruct methods as [| | | | |md]; simpl; try by eexists.
  unfold mbind, M_bind, lift. simpl.
  apply (for_each_silent (λ kv, details_ok kv.2)).
  intros [k details] _. apply check_details_silent.
Qed.

Lemma check_paths_silent paths : silent (paths_ok paths) (check_paths paths).
Proof.
  intros out. unfold check_paths, paths_ok.
  destruct paths as [| | | | |pd]; simpl; try by eexists.
  unfold mbind at 1, M_bind at 1, lift at 1. simpl.
  apply (for_each_silent (λ kv, methods_ok kv.2)).
  intros [k methods] _. apply check_methods_silent.
Qed.

(** On a value that has a length, the reference check cannot raise, and
    it reports exactly the references that are not defined. *)
Lemma missing_refs_sized spec schemas :
  sized schemas = true →
  ∃ l, missing_refs spec schemas = inr l
       ∧ ∀ name, name ∈ l ↔ name ∈ findall_refs (json_dumps spec)
                             ∧ py_in name schemas = inr false.
Proof.
  intros Hs. unfold missing_refs.
  setoid_rewrite <-(elem_of_remove_dups (findall_refs (json_dumps spec))).
  induction (remove_dups (findall_refs (json_dumps spec))) as [|ref refs IH];
    simpl.
  - exists []. split; [done|]. intros name. split; [by intros ?%elem_of_nil|].
    by intros [?%elem_of_nil _].
  - destruct IH as (l & -> & Hl).
    assert (∃ b, py_in ref schemas = inr b) as [b Hb]
      by (destruct schemas; simpl in *; try done; by eexists).
    rewrite Hb. eexists. split; [done|]. intros name.
    destruct b.
    + rewrite Hl, elem_of_cons. split; [intros [? ?]; by auto|].
      intros [[->|?] Hn]; [congruence|done].
    + rewrite !elem_of_cons, Hl. split.
      * intros [->|[? ?]]; by auto.
      * intros [[->|?] Hn]; by auto.
Qed.

Lemma check_rest_ok d out :
  paths_ok (paths_of d) = true → components_ok (components_of d) = true →
  ∃ n k l, missing_refs (PDict d) (schemas_of d) = inr l
           ∧ check_rest (PDict d) out
             = (out ++ [MFoundPaths n; MFoundSchemas k; refs_msg l;
                        MDefaultsQuoted], inr true).
Proof.
  intros Hp Hc.
  pose proof (check_paths_silent (paths_of d)) as Hloop. rewrite Hp in Hloop.
  unfold check_rest, schemas_of, paths_of, components_of in *.
  unfold mbind, M_bind, lift, print, mret, M_ret.
  cbn -[check_paths missing_refs py_len].
  destruct (default (PDict []) (dict_get d "paths")) as [| | | | |pd]; try done.
  destruct (default (PDict []) (dict_get d "components")) as [| | | | |cd];
    try done.
  simpl in Hc. cbn -[check_paths missing_refs].
  remember (default (PDict []) (dict_get cd "schemas")) as schemas.
  destruct (missing_refs_sized (PDict d) _ Hc) as (l & Hl & _).
  assert (∃ k, py_len schemas = inr k) as [k ->]
    by (destruct schemas; try done; by eexists).
  rewrite Hl. exists (length pd), k, l. split; [done|].
  cbn -[check_paths]. rewrite Hloop. by rewrite <-!app_assoc.
Qed.

Lemma check_rest_raises d out :
  paths_ok (paths_of d) && components_ok (components_of d) = false →
  ∃ out' e, check_rest (PDict d) out = (out', inl e).
Proof.
  intros Hbad.
  pose proof (check_paths_silent (paths_of d)) as Hloop.
  unfold check_rest, schemas_of, paths_of, components_of in *.
  unfold mbind, M_bind, lift, print, mret, M_ret.
  cbn -[check_paths missing_refs py_len].
  destruct (py_len (default (PDict []) (dict_get d "paths"))) as [e|n] eqn:Hn;
    [by eexists _, _|].
  destruct (default (PDict []) (dict_get d "components")) as [| | | | |cd];
    try by eexists _, _.
  cbn -[check_paths missing_refs]. cbn [components_ok] in Hbad.
  remember (default (PDict []) (dict_get cd "schemas")) as schemas.
  destruct (py_len schemas) as [e|k] eqn:Hk; [by eexists _, _|].
  assert (sized schemas = true) as Hs by (by destruct schemas).
  destruct (missing_refs_sized (PDict d) _ Hs) as (l & -> & _).
  cbn -[check_paths].
  rewrite Hs, andb_true_r in Hbad. rewrite Hbad in Hloop.
  destruct (Hloop (((out ++ [MFoundPaths n]) ++ [MFoundSchemas k])
                     ++ [refs_msg l])) as [e ->].
  by eexists _, _.
Qed.

Lemma check_rest_not_dict spec out :
  is_dict spec = false → check_rest spec out = (out, inl AttributeError).
Proof. by destruct spec. Qed.

Lemma check_fields_present d fields rest out :
  forallb (has_field (PDict d)) fields = true →
  check_fields (PDict d) fields rest out = rest (out ++ [MFieldsPresent]).
Proof.
  induction fields as [|f fields IH]; simpl; [done|].
  intros [Hf Hfs]%andb_true_iff.
  unfold mbind, M_bind, lift. simpl. rewrite Hf. by apply IH.
Qed.

Lemma check_fields_missing d fields rest out :
  forallb (has_field (PDict d)) fields = false →
  ∃ f, f ∈ fields ∧ has_field (PDict d) f = false
       ∧ check_fields (PDict d) fields rest out
         = (out ++ [MMissingField f], inr false).
Proof.
  induction fields as [|f fields IH]; simpl; [done|].
  unfold mbind, M_bind, lift. simpl.
  destruct (bool_decide (is_Some (dict_get d f))) eqn:Hf; simpl.
  - intros (f' & Hin & Hf' & Heq)%IH. exists f'.
    split; [by right|]. by split.
  - intros _. exists f. split; [by left|]. by split.
Qed.

Lemma check_fields_not_dict spec fields out :
  is_dict spec = false →
  ∃ out' r, check_fields spec fields (check_rest spec) out = (out', r)
            ∧ r ≠ inr true.
Proof.
  intros Hd. revert out. induction fields as [|f fields IH]; intros out; simpl.
  - unfold mbind, M_bind, print. simpl.
    rewrite check_rest_not_dict by done. by eexists _, _.
  - unfold mbind, M_bind, lift. simpl.
    destruct (py_in f spec) as [e|[]]; simpl.
    + by eexists _, _.
    + apply IH.
    + by eexists _, _.
Qed.

Lemma validate_loaded spec :
  validate_openapi_spec (Loaded spec) []
  = check_fields spec required_fields (check_rest spec)
      [MValidating; MYamlValid].
Proof. reflexivity. Qed.

(** [validate_openapi_spec] returns [True] exactly on the well-formed
    documents. *)
Lemma validate_true_iff file :
  (∃ out, validate_openapi_spec file [] = (out, inr true))
  ↔ ∃ spec, file = Loaded spec ∧ well_formed spec = true.
Proof.
  split.
  - intros [out Hrun]. destruct file as [| |spec]; try done.
    exists spec. split; [done|].
    rewrite validate_loaded in Hrun.
    destruct (is_dict spec) eqn:Hd.
    + destruct spec as [| | | | |d]; try done. unfold well_formed.
      destruct (forallb (has_field (PDict d)) required_fields) eqn:Hf.
      * rewrite check_fields_present in Hrun by done.
        destruct (paths_ok (paths_of d) && components_ok (components_of d))
          eqn:Hshape; [by apply andb_true_iff in Hshape as [-> ->]|].
        destruct (check_rest_raises d
                    ([MValidating; MYamlValid] ++ [MFieldsPresent]) Hshape)
          as (? & ? & Hr).
        rewrite Hr in Hrun. done.
      * destruct (check_fields_missing d _ (check_rest (PDict d))
                    [MValidating; MYamlValid] Hf) as (? & _ & _ & Hr).
        rewrite Hr in Hrun. done.
    + destruct (check_fields_not_dict spec required_fields
                  [MValidating; MYamlValid] Hd) as (? & ? & Hr & Hne).
      rewrite Hr in Hrun. by injection Hrun as _ ->.
  - intros (spec & -> & Hwf). destruct spec as [| | | | |d]; try done.
    unfold well_formed in Hwf. apply andb_true_iff in Hwf as [[Hf Hp]%andb_true_iff Hc].
    destruct (check_rest_ok d [MValidating; MYamlValid; MFieldsPresent] Hp Hc)
      as (n & k & l & _ & Hr).
    eexists. rewrite validate_loaded.
    rewrite check_fields_present by done. exact Hr.
Qed.

Lemma loads_well_formed_iff file :
  loads_well_formed file = true
  ↔ ∃ spec, file = Loaded spec ∧ well_formed spec = true.
Proof.
  destruct file as [| |spec]; simpl.
  - split; [done|]. by intros (? & [=] & _).
  - split; [done|]. by intros (? & [=] & _).
  - split; [by exists spec|]. by intros (? & [= <-] & ?).
Qed.

Lemma script_exit_code file :
  exit_code true file = if loads_well_formed file then 0 else 1.
Proof.
  pose proof (validate_true_iff file) as Hiff.
  rewrite <-loads_well_formed_iff in Hiff.
  unfold exit_code, script.
  destruct (validate_openapi_spec file []) as [out [e|[]]]; simpl.
  - destruct (loads_well_formed file); [|done].
    by destruct (proj2 Hiff eq_refl) as [? [=]].
  - by rewrite (proj1 Hiff) by by eexists.
  - destruct (loads_well_formed file); [|done].
    by destruct (proj2 Hiff eq_refl) as [? [=]].
Qed.

Lemma script_well_formed d :
  well_formed (PDict d) = true →
  ∃ n k l, missing_refs (PDict d) (schemas_of d) = inr l
           ∧ script true (Loaded (PDict d))
             = ([MValidating; MYamlValid; MFieldsPresent; MFoundPaths n;
                 MFoundSchemas k; refs_msg l; MDefaultsQuoted; MSpecValid], 0).
Proof.
  unfold well_formed. intros [[Hf Hp]%andb_true_iff Hc]%andb_true_iff.
  destruct (check_rest_ok d [MValidating; MYamlValid; MFieldsPresent] Hp Hc)
    as (n & k & l & Hl & Hr).
  exists n, k, l. split; [done|].
  unfold script. rewrite validate_loaded.
  rewrite check_fields_present by done.
  change ([MValidating; MYamlValid] ++ [MFieldsPresent])
    with [MValidating; MYamlValid; MFieldsPresent].
  by rewrite Hr.
Qed.

Lemma script_missing_field d :
  forallb (has_field (PDict d)) required_fields = false →
  ∃ f, f ∈ required_fields ∧ has_field (PDict d) f = false
       ∧ script true (Loaded (PDict d))
         = ([MValidating; MYamlValid; MMissingField f; MSpecHasIssues], 1).
Proof.
  intros Hf.
  destruct (check_fields_missing d _ (check_rest (PDict d))
              [MValidating; MYamlValid] Hf) as (f & Hin & Hno & Hr).
  exists f. split; [done|]. split; [done|].
  unfold script. rewrite validate_loaded. by rewrite Hr.
Qed.

End ValidatorFacts.

(** ** The quoting substitution, line by line *)

Section QuotingFacts.
Implicit Types (s t u w : string) (c : ascii).

Lemma sapp_nil_l s : "" +:+ s = s.
Proof. reflexivity. Qed.

Lemma sapp_cons c s t : String c s +:+ t = String c (s +:+ t).
Proof. reflexivity. Qed.

Lemma sapp_assoc s t u : (s +:+ t) +:+ u = s +:+ (t +:+ u).
Proof.
  induction s as [|c s IH]; [done|]. by rewrite !sapp_cons, IH.
Qed.

Lemma slength_app s t :
  String.length (s +:+ t) = String.length s + String.length t.
Proof.
  induction s as [|c s IH]; [done|]. rewrite sapp_cons. simpl. by rewrite IH.
Qed.

Lemma skip_add s t n : skip (String.length s + n) (s +:+ t) = skip n t.
Proof. induction s as [|c s IH]; [done|]. rewrite sapp_cons. exact IH. Qed.

Lemma prefix_skip s t :
  String.prefix s t = true → t = s +:+ skip (String.length s) t.
Proof.
  revert t. induction s as [|c s IH]; intros [|d t]; simpl; try done.
  destruct (ascii_dec c d) as [->|]; [|done].
  intros H. by rewrite sapp_cons, <-IH.
Qed.

(** *** White-space prefixes *)

Lemma take_space_app u s :
  all_space u = true → take_space (u +:+ s) = u +:+ take_space s.
Proof.
  induction u as [|c u IH]; [done|]. rewrite !sapp_cons. simpl.
  intros [-> Hu]%andb_true_iff. by rewrite IH.
Qed.

Lemma lstrip_app u s : all_space u = true → lstrip (u +:+ s) = lstrip s.
Proof.
  induction u as [|c u IH]; [done|]. rewrite !sapp_cons. simpl.
  intros [-> Hu]%andb_true_iff. by apply IH.
Qed.

Lemma take_space_not_all u s :
  all_space u = false →
  take_space (u +:+ s) = take_space u ∧ lstrip (u +:+ s) = lstrip u +:+ s
  ∧ lstrip u ≠ "".
Proof.
  induction u as [|c u IH]; [done|]. rewrite !sapp_cons. simpl.
  destruct (isspace c); simpl; [|done].
  intros (-> & -> & ?)%IH. done.
Qed.

Lemma take_space_lstrip s : take_space s +:+ lstrip s = s.
Proof.
  induction s as [|c s IH]; [done|]. simpl.
  destruct (isspace c); [by rewrite sapp_cons, IH|done].
Qed.

Lemma match_default_app w u s :
  all_space u = true →
  match_default w (u +:+ s) = match_core w (u +:+ take_space s) (lstrip s).
Proof.
  intros Hu. unfold match_default. by rewrite take_space_app, lstrip_app.
Qed.

(** *** The scan *)

Lemma sub_pending w k s :
  sub_default_from w k s = sub_default_from w 0 (skip k s).
Proof.
  revert k. induction s as [|c s IH]; intros [|k]; try done.
  simpl. apply IH.
Qed.

Lemma match_core_Some w ws rest repl n :
  match_core w ws rest = Some (repl, n) →
  ∃ c rest',
    rest = ("default: " +:+ w) +:+ String c rest' ∧ isspace c = true
    ∧ ws ≠ ""
    ∧ repl = ws +:+ "default: "
                +:+ String dquote w +:+ String dquote (String c "")
    ∧ n = String.length ws + String.length ("default: " +:+ w) + 1.
Proof.
  unfold match_core. cbv zeta.
  set (lit := "default: " +:+ w).
  destruct (0 <? String.length ws) eqn:Hws; [|by simpl].
  destruct (String.prefix lit rest) eqn:Hpre; [|by simpl].
  cbn [andb]. apply prefix_skip in Hpre.
  destruct (skip (String.length lit) rest) as [|c rest'] eqn:Hskip; [done|].
  destruct (isspace c) eqn:Hc; [|done].
  intros [= <- <-]. exists c, rest'. split; [done|]. split; [done|].
  split; [by destruct ws|done].
Qed.

Lemma sub_match w s repl n :
  match_default w s = Some (repl, n) →
  sub_default w s = repl +:+ sub_default w (skip n s).
Proof.
  intros Hm. destruct s as [|c s]; [done|].
  unfold sub_default. simpl. rewrite Hm.
  apply match_core_Some in Hm as (? & ? & _ & _ & _ & _ & ->).
  set (N := String.length _ + String.length _).
  rewrite (sub_pending w (N + 1 - 1)).
  replace (N + 1 - 1) with N by lia. by replace (N + 1) with (S N) by lia.
Qed.

Lemma sub_no_match w c s :
  match_default w (String c s) = None →
  sub_default w (String c s) = String c (sub_default w s).
Proof. intros Hm. unfold sub_default. simpl. by rewrite Hm. Qed.

(** *** Lines *)

Lemma split_nl_cons a s :
  split_nl (String a s)
  = if Ascii.eqb a nl then "" :: split_nl s
    else match split_nl s with
         | h :: tl => String a h :: tl
         | [] => [String a ""]
         end.
Proof. reflexivity. Qed.

Lemma split_nl_nonempty s : ∃ h tl, split_nl s = h :: tl.
Proof.
  induction s as [|a s (h & tl & IH)]; [by eexists _, _|].
  rewrite split_nl_cons, IH. destruct (Ascii.eqb a nl); by eexists _, _.
Qed.

Lemma nlines_cons a s :
  nlines (String a s) = if Ascii.eqb a nl then S (nlines s) else nlines s.
Proof.
  unfold nlines. rewrite split_nl_cons.
  destruct (split_nl_nonempty s) as (h & tl & ->).
  by destruct (Ascii.eqb a nl).
Qed.

Lemma nlines_pos s : 1 ≤ nlines s.
Proof.
  unfold nlines. destruct (split_nl_nonempty s) as (h & tl & ->). simpl. lia.
Qed.

Lemma at_line_start_cons a s :
  at_line_start (String a s)
  ↔ at_line_start s ∧ (Ascii.eqb a nl = true ∨ 2 ≤ nlines s).
Proof.
  unfold at_line_start, nlines. rewrite split_nl_cons.
  destruct (split_nl_nonempty s) as (h & tl & ->).
  destruct (Ascii.eqb a nl).
  - rewrite last_cons_cons. split; [intros ?; by auto|by intros [? _]].
  - destruct tl as [|h' tl]; simpl.
    + split; [done|]. intros [_ [?|?]]; [done|lia].
    + split; [intros ?; split; [done|right; lia]|by intros [? _]].
Qed.

Lemma at_line_start_suffix u s : at_line_start (u +:+ s) → at_line_start s.
Proof.
  induction u as [|a u IH]; [done|]. rewrite sapp_cons.
  intros [? _]%at_line_start_cons. by apply IH.
Qed.

Lemma nlines_app_no_nl u s : no_nl u = true → nlines (u +:+ s) = nlines s.
Proof.
  induction u as [|a u IH]; [done|]. rewrite sapp_cons. simpl.
  intros [Ha Hu]%andb_true_iff. rewrite nlines_cons.
  apply negb_true_iff in Ha. rewrite Ha. by apply IH.
Qed.

(** Equal text in front keeps two strings aligned: the same number of
    lines, both at the start of a line. *)
Lemma aligned_common u X A :
  nlines X = nlines A → at_line_start X → at_line_start (u +:+ A) →
  nlines (u +:+ X) = nlines (u +:+ A) ∧ at_line_start (u +:+ X).
Proof.
  intros Hn HX. induction u as [|a u IH]; [done|]. rewrite !sapp_cons.
  intros [Hu Ha]%at_line_start_cons. destruct (IH Hu) as [IHn IHs].
  split.
  - rewrite !nlines_cons. by rewrite IHn.
  - apply at_line_start_cons. split; [done|]. by rewrite IHn.
Qed.

(** A character other than the newline, put in front of text that still
    holds a newline, changes neither. *)
Lemma aligned_insert q X :
  Ascii.eqb q nl = false → at_line_start X → 2 ≤ nlines X →
  nlines (String q X) = nlines X ∧ at_line_start (String q X).
Proof.
  intros Hq HX Hn. rewrite nlines_cons, at_line_start_cons, Hq. auto.
Qed.

(** The replacement of a match is aligned with the text it replaces. *)
Lemma aligned_quoted w ws c X A :
  no_nl w = true →
  nlines X = nlines A → at_line_start X →
  at_line_start (ws +:+ ("default: " +:+ w) +:+ String c A) →
  nlines ((ws +:+ "default: " +:+ String dquote w
              +:+ String dquote (String c "")) +:+ X)
  = nlines (ws +:+ ("default: " +:+ w) +:+ String c A)
  ∧ at_line_start ((ws +:+ "default: " +:+ String dquote w
                       +:+ String dquote (String c "")) +:+ X).
Proof.
  intros Hw Hn HX HA.
  assert (at_line_start (("default: " +:+ w) +:+ String c A)) as Hd
    by by apply (at_line_start_suffix ws).
  rewrite sapp_assoc in Hd.
  assert (at_line_start (w +:+ String c A)) as HwA
    by by apply (at_line_start_suffix "default: ").
  assert (at_line_start (String c A)) as HcA
    by by apply (at_line_start_suffix w).
  assert (2 ≤ nlines (String c A)) as H2.
  { change ("default: " +:+ w +:+ String c A)
      with (String "d" ("efault: " +:+ w +:+ String c A)) in Hd.
    apply at_line_start_cons in Hd as [_ [?|H2]]; [done|].
    by rewrite (nlines_app_no_nl "efault: "), (nlines_app_no_nl w) in H2. }
  destruct (aligned_common (String c "") X A Hn HX HcA) as [H1n H1s].
  rewrite !sapp_cons, !sapp_nil_l in H1n, H1s.
  destruct (aligned_insert dquote (String c X)) as [H2n H2s];
    [done|done|by rewrite H1n|].
  destruct (aligned_common w (String dquote (String c X)) (String c A))
    as [H3n H3s]; [by rewrite H2n|done|done|].
  destruct (aligned_insert dquote (w +:+ String dquote (String c X)))
    as [H4n H4s]; [done|done|by rewrite H3n, nlines_app_no_nl|].
  assert ((ws +:+ "default: " +:+ String dquote w
              +:+ String dquote (String c "")) +:+ X
          = (ws +:+ "default: ")
              +:+ String dquote (w +:+ String dquote (String c X))) as ->
    by (by rewrite !sapp_assoc).
  assert (ws +:+ ("default: " +:+ w) +:+ String c A
          = (ws +:+ "default: ") +:+ w +:+ String c A) as Hin
    by (by rewrite !sapp_assoc).
  rewrite Hin in HA |- *.
  apply aligned_common; [by rewrite H4n|done|done].
Qed.

(** *** Text in front of a block *)

(** A literal without newline that starts inside text which ends a line
    ends inside it too, with one more character behind it. *)
Lemma lit_inside lit A2 Blk c rest' :
  no_nl lit = true → A2 ≠ "" → at_line_start A2 →
  A2 +:+ Blk = lit +:+ String c rest' →
  ∃ A3, A2 = lit +:+ String c A3 ∧ rest' = A3 +:+ Blk.
Proof.
  revert A2. induction lit as [|d lit IH]; intros [|a A2] Hlit Hne HA2; try done.
  - rewrite sapp_cons, sapp_nil_l. intros [= -> <-]. by exists A2.
  - rewrite !sapp_cons. intros [= -> Heq].
    simpl in Hlit. apply andb_true_iff in Hlit as [Hd Hlit].
    apply negb_true_iff in Hd.
    apply at_line_start_cons in HA2 as [HA2 [?|H2]]; [congruence|].
    destruct (IH A2 Hlit) as (A3 & -> & ->); [|done|done|by exists A3].
    intros ->. unfold nlines in H2. simpl in H2. lia.
Qed.

(** When the substitution maps [W +:+ Blk] to [W +:+ Out] for every run of
    white space [W], it maps [A +:+ Blk], for every text [A] that ends a
    line, to some [X +:+ Out] with [X] aligned with [A]. *)
Lemma sub_before_block w Blk Out :
  no_nl w = true →
  (∀ W, all_space W = true → sub_default w (W +:+ Blk) = W +:+ Out) →
  ∀ A, at_line_start A →
    ∃ X, sub_default w (A +:+ Blk) = X +:+ Out
         ∧ nlines X = nlines A ∧ at_line_start X.
Proof.
  intros Hw HB A. remember (String.length A) as n eqn:Hn. revert A Hn.
  induction n as [n IH] using lt_wf_ind. intros A -> HA.
  destruct (all_space A) eqn:Hsp; [exists A; by rewrite HB|].
  destruct (match_default w (A +:+ Blk)) as [[repl n]|] eqn:Hm.
  - pose proof Hm as Hm'. unfold match_default in Hm'.
    destruct (take_space_not_all A Blk Hsp) as (Ets & Els & Hne).
    rewrite Ets, Els in Hm'.
    apply match_core_Some in Hm' as (c & rest' & Hrest & Hc & Hws & -> & ->).
    assert (at_line_start (lstrip A)) as HlA.
    { apply (at_line_start_suffix (take_space A)).
      by rewrite take_space_lstrip. }
    destruct (lit_inside ("default: " +:+ w) _ _ _ _ Hw Hne HlA Hrest)
      as (A3 & HA3 & ->).
    assert (A = take_space A +:+ ("default: " +:+ w) +:+ String c A3) as EA
      by (by rewrite <-HA3, take_space_lstrip).
    rewrite (sub_match _ _ _ _ Hm).
    assert (skip (String.length (take_space A)
                  + String.length ("default: " +:+ w) + 1)
              ((take_space A +:+ ("default: " +:+ w) +:+ String c A3) +:+ Blk)
            = A3 +:+ Blk) as Hskip.
    { rewrite (sapp_assoc (take_space A)), <-Nat.add_assoc, skip_add.
      rewrite (sapp_assoc ("default: " +:+ w)), skip_add. by rewrite sapp_cons. }
    rewrite <-EA in Hskip. rewrite Hskip. clear Hskip.
    destruct (IH (String.length A3)) with (A := A3) as (X3 & -> & HnX & HsX).
    + rewrite EA, !slength_app. simpl. lia.
    + done.
    + rewrite EA in HA. do 2 apply at_line_start_suffix in HA.
      by apply at_line_start_cons in HA as [? _].
    + exists ((take_space A +:+ "default: " +:+ String dquote w
                   +:+ String dquote (String c "")) +:+ X3).
      split; [symmetry; apply sapp_assoc|].
      assert (at_line_start
                (take_space A +:+ ("default: " +:+ w) +:+ String c A3)) as HA'
        by (by rewrite <-EA).
      pose proof (aligned_quoted w (take_space A) c X3 A3 Hw HnX HsX HA') as H.
      by rewrite <-EA in H.
  - destruct A as [|a A]; [done|].
    rewrite sapp_cons in Hm |- *. rewrite (sub_no_match _ _ _ Hm).
    apply at_line_start_cons in HA as HA'. destruct HA' as [HA' _].
    destruct (IH (String.length A)) with (A := A) as (X & -> & HnX & HsX);
      [simpl; lia|done|done|].
    exists (String a X). split; [done|].
    by apply (aligned_common (String a "")).
Qed.

(** *** Lines of a document and their place in the text *)

Lemma at_line_start_nlines_1 A : at_line_start A → nlines A = 1 → A = "".
Proof.
  destruct A as [|a A]; [done|].
  intros [HA Ha]%at_line_start_cons. rewrite nlines_cons.
  pose proof (nlines_pos A). destruct (Ascii.eqb a nl); [lia|].
  destruct Ha; [done|lia].
Qed.

(** The line at index [i] sits behind a text that ends a line and holds [i]
    newlines; behind it the document ends or a newline follows. *)
Lemma split_nl_lookup s i L :
  split_nl s !! i = Some L →
  ∃ A t, s = A +:+ L +:+ t ∧ at_line_start A ∧ nlines A = S i
         ∧ ((t = "" ∧ S i = nlines s)
            ∨ (∃ B, t = String nl B ∧ S i < nlines s)).
Proof.
  revert i L. induction s as [|a s IH]; intros i L.
  - destruct i; [|done]. intros [= <-]. exists "", "".
    split; [done|]. split; [done|]. split; [done|]. by left.
  - rewrite split_nl_cons, nlines_cons.
    destruct (split_nl_nonempty s) as (h & tl & Hs).
    destruct (Ascii.eqb a nl) eqn:Ha.
    + apply Ascii.eqb_eq in Ha as ->. destruct i as [|i]; simpl.
      * intros [= <-]. exists "", (String nl s). split; [done|].
        split; [done|]. split; [done|]. right. exists s. split; [done|].
        pose proof (nlines_pos s). lia.
      * intros (A & t & -> & HA & Hn & Ht)%IH.
        exists (String nl A), t. split; [done|].
        split; [apply at_line_start_cons; by auto|].
        split; [by rewrite nlines_cons, Hn|].
        destruct Ht as [[-> ?]|(B & -> & ?)]; [left|right; exists B];
          split; try done; lia.
    + rewrite Hs. destruct i as [|i]; simpl.
      * intros [= <-].
        destruct (IH 0 h) as (A & t & Es & HA & Hn & Ht); [by rewrite Hs|].
        apply at_line_start_nlines_1 in Hn as ->; [|done].
        rewrite sapp_nil_l in Es. exists "", t.
        split; [by rewrite Es|]. split; [done|]. split; [done|exact Ht].
      * intros Hi.
        destruct (IH (S i) L) as (A & t & -> & HA & Hn & Ht);
          [by rewrite Hs|].
        exists (String a A), t. split; [done|].
        split; [apply at_line_start_cons; split; [done|right; lia]|].
        split; [by rewrite nlines_cons, Ha|done].
Qed.

Lemma split_nl_line L t :
  no_nl L = true → t = "" ∨ (∃ B, t = String nl B) →
  ∃ tl, split_nl (L +:+ t) = L :: tl.
Proof.
  intros HL Ht. induction L as [|a L IH].
  - rewrite sapp_nil_l. destruct Ht as [->|(B & ->)]; by eexists.
  - simpl in HL. apply andb_true_iff in HL as [Ha HL].
    apply negb_true_iff in Ha.
    destruct (IH HL) as [tl Htl].
    rewrite sapp_cons, split_nl_cons, Ha, Htl. by eexists.
Qed.

Lemma split_nl_block X L t :
  at_line_start X → no_nl L = true → t = "" ∨ (∃ B, t = String nl B) →
  split_nl (X +:+ L +:+ t) !! (nlines X - 1) = Some L.
Proof.
  intros HX HL Ht. induction X as [|a X IH].
  - rewrite sapp_nil_l. by destruct (split_nl_line L t HL Ht) as [tl ->].
  - apply at_line_start_cons in HX as [HX Ha].
    rewrite sapp_cons, split_nl_cons, nlines_cons.
    pose proof (nlines_pos X).
    destruct (Ascii.eqb a nl).
    + replace (S (nlines X) - 1) with (S (nlines X - 1)) by lia. by apply IH.
    + destruct Ha as [?|Ha]; [done|].
      destruct (split_nl (X +:+ L +:+ t)) as [|h tl] eqn:Hs.
      { destruct (split_nl_nonempty (X +:+ L +:+ t)) as (? & ? & ?).
        congruence. }
      specialize (IH HX).
      replace (nlines X - 1) with (S (nlines X - 2)) in IH |- * by lia.
      done.
Qed.

(** What starts with a newline still does after the substitution. *)
Lemma sub_default_nl w B : ∃ Y, sub_default w (String nl B) = String nl Y.
Proof.
  destruct (match_default w (String nl B)) as [[repl n]|] eqn:Hm.
  - rewrite (sub_match _ _ _ _ Hm). unfold match_default in Hm.
    apply match_core_Some in Hm as (c & rest & _ & _ & _ & -> & _).
    simpl. rewrite !sapp_cons. by eexists.
  - rewrite (sub_no_match _ _ _ Hm). by eexists.
Qed.

(** *** Blocks: a line and what follows it *)

Lemma prefix_app s t : String.prefix s (s +:+ t) = true.
Proof.
  induction s as [|c s IH]; [by destruct t|]. rewrite sapp_cons. simpl.
  by destruct (ascii_dec c c).
Qed.

Lemma skip_length s t : skip (String.length s) (s +:+ t) = t.
Proof.
  rewrite <-(Nat.add_0_r (String.length s)), skip_add. by destruct t.
Qed.

Lemma match_core_hit w ws c rest :
  ws ≠ "" → isspace c = true →
  match_core w ws (("default: " +:+ w) +:+ String c rest)
  = Some (ws +:+ "default: " +:+ String dquote w
             +:+ String dquote (String c ""),
          String.length ws + String.length ("default: " +:+ w) + 1).
Proof.
  intros Hws Hc. unfold match_core. cbv zeta.
  rewrite prefix_app, skip_length, Hc. by destruct ws.
Qed.

(** White space, the literal and one more white-space character: a match,
    after which the scan goes on behind that character. *)
Lemma sub_space_hit w W ws0 c B :
  all_space W = true → all_space ws0 = true → ws0 ≠ "" → isspace c = true →
  sub_default w (W +:+ ws0 +:+ ("default: " +:+ w) +:+ String c B)
  = W +:+ ws0 +:+ ("default: " +:+ String dquote w
                      +:+ String dquote (String c (sub_default w B))).
Proof.
  intros HW Hws0 Hne Hc.
  set (ws := W +:+ ws0).
  assert (all_space ws = true) as Hws.
  { unfold ws. clear -HW Hws0. induction W as [|a W IH]; [done|].
    rewrite sapp_cons. simpl in *. apply andb_true_iff in HW as [-> HW].
    by apply IH. }
  assert (ws ≠ "") as Hwsne.
  { unfold ws. destruct W; [done|by rewrite sapp_cons]. }
  assert (match_default w (ws +:+ ("default: " +:+ w) +:+ String c B)
          = Some (ws +:+ "default: " +:+ String dquote w
                     +:+ String dquote (String c ""),
                  String.length ws + String.length ("default: " +:+ w) + 1))
    as Hm.
  { rewrite match_default_app by done.
    change (take_space (("default: " +:+ w) +:+ String c B)) with "".
    change (lstrip (("default: " +:+ w) +:+ String c B))
      with (("default: " +:+ w) +:+ String c B).
    replace (ws +:+ "") with ws
      by (clear; induction ws as [|a ws IH];
          [done|by rewrite sapp_cons, <-IH]).
    by apply match_core_hit. }
  rewrite <-(sapp_assoc W ws0). fold ws.
  rewrite (sub_match _ _ _ _ Hm).
  rewrite <-Nat.add_assoc, skip_add, skip_add.
  change (skip 1 (String c B)) with B. unfold ws. by rewrite !sapp_assoc.
Qed.

(** White space in front of a block at which no match can end is copied. *)
Lemma sub_space_inert w Blk :
  (∀ ws, match_core w ws (lstrip Blk) = None) →
  ∀ W, all_space W = true →
    sub_default w (W +:+ Blk) = W +:+ sub_default w Blk.
Proof.
  intros Hin W. induction W as [|a W IH]; [done|].
  intros HW. pose proof HW as HW'. simpl in HW'.
  apply andb_true_iff in HW' as [Ha HW'].
  rewrite !sapp_cons, sub_no_match; [by rewrite IH|].
  rewrite <-sapp_cons, match_default_app by done. apply Hin.
Qed.

(** *** The two substitutions of [quote_defaults] on one line *)

Lemma quote_defaults_block A L L1 L2 t t1 t2 :
  at_line_start A →
  (∀ W, all_space W = true →
        sub_default "en" (W +:+ L +:+ t) = W +:+ L1 +:+ t1) →
  (∀ W, all_space W = true →
        sub_default "published" (W +:+ L1 +:+ t1) = W +:+ L2 +:+ t2) →
  no_nl L2 = true → t2 = "" ∨ (∃ B, t2 = String nl B) →
  split_nl (quote_defaults (A +:+ L +:+ t)) !! (nlines A - 1) = Some L2.
Proof.
  intros HA H1 H2 HL2 Ht2.
  destruct (sub_before_block "en" (L +:+ t) (L1 +:+ t1) eq_refl H1 A HA)
    as (X1 & E1 & Hn1 & Hs1).
  destruct (sub_before_block "published" (L1 +:+ t1) (L2 +:+ t2) eq_refl H2
              X1 Hs1) as (X2 & E2 & Hn2 & Hs2).
  unfold quote_defaults. rewrite E1, E2, <-Hn1, <-Hn2.
  by apply split_nl_block.
Qed.

Ltac push_app := rewrite ?sapp_cons, ?sapp_nil_l.

Ltac inert_core :=
  let ws := fresh "ws" in
  intros ws; push_app; vm_compute; by destruct ws.

Ltac inert_line :=
  push_app; repeat (rewrite sub_no_match by reflexivity); reflexivity.

Lemma sub_tail w t :
  t = "" ∨ (∃ B, t = String nl B) →
  sub_default w t = "" ∨ (∃ B, sub_default w t = String nl B).
Proof.
  intros [->|(B & ->)]; [by left|]. right. apply sub_default_nl.
Qed.

Lemma sub_en_default_en W B :
  all_space W = true →
  sub_default "en" (W +:+ default_en +:+ String nl B)
  = W +:+ default_en_quoted +:+ String nl (sub_default "en" B).
Proof.
  intros HW.
  apply (sub_space_hit "en" W "  " nl B HW); done.
Qed.

Lemma sub_en_default_en_last W :
  all_space W = true →
  sub_default "en" (W +:+ default_en +:+ "") = W +:+ default_en +:+ "".
Proof.
  intros HW. rewrite sub_space_inert; [done| |done]. inert_core.
Qed.

Lemma sub_published_keeps w L W t :
  (∀ ws, match_core w ws (lstrip (L +:+ t)) = None) →
  sub_default w (L +:+ t) = L +:+ sub_default w t →
  all_space W = true →
  sub_default w (W +:+ L +:+ t) = W +:+ L +:+ sub_default w t.
Proof. intros Hc HL HW. by rewrite sub_space_inert, HL. Qed.

Lemma sub_published_default_en W t :
  all_space W = true →
  sub_default "published" (W +:+ default_en +:+ t)
  = W +:+ default_en +:+ sub_default "published" t.
Proof. apply sub_published_keeps; unfold default_en; [inert_core|inert_line]. Qed.

Lemma sub_published_default_en_quoted W t :
  all_space W = true →
  sub_default "published" (W +:+ default_en_quoted +:+ t)
  = W +:+ default_en_quoted +:+ sub_default "published" t.
Proof.
  apply sub_published_keeps; unfold default_en_quoted;
    [inert_core|inert_line].
Qed.

Lemma sub_en_default_enable W t :
  all_space W = true →
  sub_default "en" (W +:+ default_enable +:+ t)
  = W +:+ default_enable +:+ sub_default "en" t.
Proof.
  apply sub_published_keeps; unfold default_enable; [inert_core|inert_line].
Qed.

Lemma sub_published_default_enable W t :
  all_space W = true →
  sub_default "published" (W +:+ default_enable +:+ t)
  = W +:+ default_enable +:+ sub_default "published" t.
Proof.
  apply sub_published_keeps; unfold default_enable; [inert_core|inert_line].
Qed.

(** In every document the quoting step turns a line [  default: en] into
    its quoted form when a newline follows it and leaves it as it is when it
    ends the document; a line [  default: enable] is never altered. *)
Lemma quote_defaults_line_by_line content i :
  (split_nl content !! i = Some default_en → S i < nlines content →
   split_nl (quote_defaults content) !! i = Some default_en_quoted)
  ∧ (split_nl content !! i = Some default_en → S i = nlines content →
     split_nl (quote_defaults content) !! i = Some default_en)
  ∧ (split_nl content !! i = Some default_enable →
     split_nl (quote_defaults content) !! i = Some default_enable).
Proof.
  split; [|split].
  - intros (A & t & -> & HA & Hn & Ht)%split_nl_lookup Hlt.
    destruct Ht as [[_ ?]|(B & -> & _)]; [lia|].
    replace i with (nlines A - 1) by lia.
    apply (quote_defaults_block A default_en default_en_quoted
             default_en_quoted (String nl B)
             (String nl (sub_default "en" B))
             (sub_default "published" (String nl (sub_default "en" B))));
      [done| | |done|].
    + intros W HW. by apply sub_en_default_en.
    + intros W HW. by apply sub_published_default_en_quoted.
    + right. apply sub_default_nl.
  - intros (A & t & -> & HA & Hn & Ht)%split_nl_lookup Heq.
    destruct Ht as [[-> _]|(B & -> & ?)]; [|lia].
    replace i with (nlines A - 1) by lia.
    apply (quote_defaults_block A default_en default_en default_en "" "" "");
      [done| | |done|by left].
    + intros W HW. by apply sub_en_default_en_last.
    + intros W HW. by apply (sub_published_default_en W "").
  - intros (A & t & -> & HA & Hn & Ht)%split_nl_lookup.
    replace i with (nlines A - 1) by lia.
    apply (quote_defaults_block A default_enable default_enable default_enable
             t (sub_default "en" t)
             (sub_default "published" (sub_default "en" t)));
      [done| | |done|].
    + intros W HW. by apply sub_en_default_enable.
    + intros W HW. by apply sub_published_default_enable.
    + apply sub_tail, sub_tail.
      destruct Ht as [[-> _]|(B & -> & _)]; [by left|right; by eexists].
Qed.

End QuotingFacts.

(** ** [fix_api_spec] and the one pass *)

Section WholeFile.

Lemma join_split_nl s : join_nl (split_nl s) = s.
Proof.
  induction s as [|a s IH]; [done|].
  rewrite split_nl_cons.
  destruct (split_nl_nonempty s) as (h & tl & Hs). rewrite Hs in IH |- *.
  destruct (Ascii.eqb a nl) eqn:Ha.
  - apply Ascii.eqb_eq in Ha as ->.
    change (join_nl ("" :: h :: tl)) with ("" +:+ String nl (join_nl (h :: tl))).
    by rewrite IH.
  - destruct tl as [|h' tl]; [by rewrite <-IH|].
    change (join_nl (String a h :: h' :: tl))
      with (String a (h +:+ String nl (join_nl (h' :: tl)))).
    by rewrite <-IH.
Qed.

Lemma removal_set_few lines marker is_boundary :
  occurrences marker lines < 2 → removal_set lines marker is_boundary = ∅.
Proof.
  intros H. unfold removal_set, mark_duplicates.
  rewrite length_match_indices. by destruct (decide _); [lia|].
Qed.

(** With at most one webhook section, [fix_api_spec] is the one pass for
    the billing marker between [split] and [join]. *)
Lemma fix_api_spec_billing_pass content :
  let lines := split_nl (quote_defaults content) in
  occurrences is_webhook_only lines < 2 →
  fix_api_spec content
  = join_nl (remove_duplicates lines is_billing billing_boundary).
Proof.
  intros lines Hw. unfold fix_api_spec. fold lines.
  rewrite lines_to_remove_union, (removal_set_few _ is_webhook_only) by done.
  rewrite (right_id_L ∅ (∪)). unfold remove_duplicates.
  destruct (decide _); [|done]. unfold lines. by rewrite join_split_nl.
Qed.

(** With at most one section of either kind nothing is removed. *)
Lemma fix_api_spec_no_duplicates content :
  let lines := split_nl (quote_defaults content) in
  occurrences is_billing lines < 2 → occurrences is_webhook_only lines < 2 →
  fix_api_spec content = quote_defaults content.
Proof.
  intros lines Hb Hw. unfold lines in *.
  rewrite fix_api_spec_billing_pass by done.
  rewrite remove_duplicates_unchanged by done. apply join_split_nl.
Qed.

End WholeFile.

(** ** The duplicate-section remover: specification *)

(** C1, as stated, fails: with three definitions of the billing path the
    second span is [3,7) and the third is [5,7), six indices in sum, yet only
    the four lines of their union are removed from the seven. *)
Lemma line_count_not_sum_of_spans :
  1 < occurrences is_billing billing_thrice
  ∧ duplicate_spans billing_thrice is_billing billing_boundary = [(3, 7); (5, 7)]
  ∧ length (remove_duplicates billing_thrice is_billing billing_boundary)
    ≠ length billing_thrice
      - span_lengths (duplicate_spans billing_thrice is_billing billing_boundary).
Proof. vm_compute. split; [lia|]. split; [done|]. lia. Qed.

(** C1 (amended): when the marker occurs more than once, the result holds
    exactly one occurrence, the first, at its old place after an unchanged
    prefix; the marked indices are the union of the duplicates' spans, and the
    line count drops by the number of distinct marked indices, which is at
    most the sum of the span lengths and equals it when every marker line is
    a boundary line (then the spans cannot overlap). *)
Theorem remove_duplicates_keeps_first_only
    (lines : list string) (marker is_boundary : string → bool) :
  1 < occurrences marker lines →
  let out := remove_duplicates lines marker is_boundary in
  let rm := removal_set lines marker is_boundary in
  let spans := duplicate_spans lines marker is_boundary in
  occurrences marker out = 1
  ∧ (∃ m0, head (match_indices marker lines) = Some m0
           ∧ match_indices marker out = [m0]
           ∧ take (S m0) out = take (S m0) lines)
  ∧ (∀ k, k ∈ rm ↔ ∃ sp, sp ∈ spans ∧ sp.1 ≤ k < sp.2)
  ∧ length out = length lines - size rm
  ∧ size rm ≤ span_lengths spans
  ∧ ((∀ l, marker l = true → is_boundary l = true) →
     length out = length lines - span_lengths spans).
Proof.
  intros Hocc out rm spans. subst out rm spans.
  assert (length (remove_duplicates lines marker is_boundary)
          = length lines - size (removal_set lines marker is_boundary)) as Hlen.
  { rewrite remove_duplicates_cleaned.
    pose proof (length_cleaned_lines lines (removal_set lines marker is_boundary)
                  (removal_set_lt lines marker is_boundary)). lia. }
  rewrite <-length_match_indices in Hocc.
  split; [|split; [|split; [|split; [|split]]]].
  - rewrite occurrences_remove_duplicates.
    destruct (match_indices marker lines) as [|? [|? ?]]; simpl in *; lia.
  - destruct (match_indices marker lines) as [|m0 rest] eqn:E; [simpl in Hocc; lia|].
    exists m0. split; [done|]. split.
    + rewrite match_indices_remove_duplicates, E. simpl. by rewrite take_0.
    + apply remove_duplicates_take_first. by rewrite E.
  - apply elem_of_duplicate_spans.
  - done.
  - apply size_removal_set.
  - intros Hmb. by rewrite <-size_removal_set_disjoint.
Qed.

Lemma remove_duplicates_keeps_first_only_witness :
  occurrences is_billing
    (remove_duplicates billing_thrice is_billing billing_boundary) = 1
  ∧ length (remove_duplicates billing_thrice is_billing billing_boundary)
    = length billing_thrice
      - size (removal_set billing_thrice is_billing billing_boundary).
Proof.
  assert (1 < occurrences is_billing billing_thrice) as H by (vm_compute; lia).
  destruct (remove_duplicates_keeps_first_only
              billing_thrice is_billing billing_boundary H)
    as (H1 & _ & _ & H2 & _).
  split; [exact H1|exact H2].
Defined.

(** C2: for every occurrence of the marker after the first, at index [m],
    exactly the span from [m] up to, not including, the first boundary line
    after [m] (or the end of the document) is marked; the output is the input
    filtered by the unmarked indices, in the input's order. *)
Theorem remove_duplicates_marks_spans
    (lines : list string) (marker is_boundary : string → bool) :
  let rm := removal_set lines marker is_boundary in
  (∀ m, later_occurrence marker lines m →
        ∃ e, is_boundary_index is_boundary lines m e)
  ∧ (∀ m e k, later_occurrence marker lines m →
              is_boundary_index is_boundary lines m e →
              m ≤ k < e → k ∈ rm)
  ∧ (∀ k, k ∈ rm →
          ∃ m e, later_occurrence marker lines m
                 ∧ is_boundary_index is_boundary lines m e ∧ m ≤ k < e)
  ∧ remove_duplicates lines marker is_boundary
    = line_at lines <$> filter (λ i, i ∉ rm) (seq 0 (length lines))
  ∧ remove_duplicates lines marker is_boundary `sublist_of` lines.
Proof.
  intros rm. subst rm. split; [|split; [|split; [|split]]].
  - intros m (Hm & _). eexists. by apply is_boundary_index_find_end.
  - intros m e k Hm He Hk. apply elem_of_removal_set. exists m.
    split; [by apply later_occurrence_iff|].
    by rewrite <-(is_boundary_index_unique _ _ _ _ He).
  - intros k (m & Hm & Hk)%elem_of_removal_set.
    apply later_occurrence_iff in Hm.
    exists m, (find_end is_boundary lines m). split; [done|]. split; [|done].
    apply is_boundary_index_find_end. by destruct Hm.
  - apply remove_duplicates_seq.
  - rewrite remove_duplicates_cleaned. unfold cleaned_lines.
    assert (lines = (enumerate lines).*2) as Hl.
    { unfold enumerate. rewrite fmap_imap. clear.
      induction lines as [|x l IH] using rev_ind; [done|].
      by rewrite imap_app, <-IH. }
    rewrite Hl at 2. apply fmap_sublist, sublist_filter.
Qed.

(** C3: with fewer than two occurrences of the marker the input comes back
    unchanged; the function is total, so no occurrence at all is no error. *)
Theorem remove_duplicates_few_matches
    (lines : list string) (marker is_boundary : string → bool) :
  occurrences marker lines < 2 →
  remove_duplicates lines marker is_boundary = lines.
Proof. apply remove_duplicates_unchanged. Qed.

Lemma remove_duplicates_few_matches_witness :
  remove_duplicates ["a:"; "/x:"; "  foo"] (String.eqb "/x:") (startswith "/")
  = ["a:"; "/x:"; "  foo"]
  ∧ remove_duplicates ["a:"; "  foo"] (String.eqb "/x:") (startswith "/")
    = ["a:"; "  foo"].
Proof.
  split; apply remove_duplicates_few_matches; vm_compute; lia.
Defined.

(** C4: [remove_duplicates] is idempotent for every document, marker test
    and boundary test. *)
Theorem remove_duplicates_idempotent
    (lines : list string) (marker is_boundary : string → bool) :
  remove_duplicates (remove_duplicates lines marker is_boundary)
    marker is_boundary
  = remove_duplicates lines marker is_boundary.
Proof.
  apply remove_duplicates_unchanged. rewrite occurrences_remove_duplicates.
  destruct (match_indices marker lines); simpl; rewrite ?take_0; simpl; lia.
Qed.

(** C6: the worked example of the specification. *)
Theorem remove_duplicates_example :
  remove_duplicates doc6 (String.eqb "/x:") (startswith "/")
  = ["a:"; "/x:"; "  foo"; "/y:"; "/z:"].
Proof. vm_compute. reflexivity. Qed.

(** C9: the scan of a duplicate starts one line below its marker line, whose
    content it never reads; the span therefore holds at least that marker
    line, whatever the boundary test says of it, and no occurrence after the
    first is left in the output. *)
Theorem duplicate_marker_line_removed
    (lines : list string) (marker is_boundary : string → bool) (m : nat) :
  later_occurrence marker lines m →
  (∀ x, find_end is_boundary (<[m:=x]> lines) m = find_end is_boundary lines m)
  ∧ m < find_end is_boundary lines m
  ∧ m ∈ removal_set lines marker is_boundary
  ∧ (∀ m', ¬ later_occurrence marker
                (remove_duplicates lines marker is_boundary) m').
Proof.
  intros Hm. split; [|split; [|split]].
  - intros x. apply find_end_insert.
  - apply find_end_gt. by destruct Hm.
  - by apply later_match_marked, later_occurrence_iff.
  - intros m'. apply no_later_occurrence_after.
Qed.

Lemma duplicate_marker_line_removed_witness :
  startswith "/" (line_at doc6 4) = true
  ∧ 4 < find_end (startswith "/") doc6 4
  ∧ 4 ∈ removal_set doc6 (String.eqb "/x:") (startswith "/").
Proof.
  assert (later_occurrence (String.eqb "/x:") doc6 4) as H.
  { split; [simpl; lia|]. split; [reflexivity|].
    exists 1. split; [lia|reflexivity]. }
  destruct (duplicate_marker_line_removed doc6 (String.eqb "/x:")
              (startswith "/") 4 H) as (_ & H1 & H2 & _).
  split; [reflexivity|]. split; [exact H1|exact H2].
Defined.

(** ** [fix_api_spec] on whole files *)

(** C5 fails on the code: the span of the duplicate webhook section runs to
    the next comment heading and takes the first, and only, billing section
    with it (index 5 is marked), although line 37 says that the first
    occurrence is kept and the billing pass does stop at any other path. *)
Theorem first_billing_occurrence_removed :
  let lines := split_nl (quote_defaults webhook_then_billing) in
  collect_indices lines = ([5], [1; 3])
  ∧ 5 ∈ lines_to_remove lines
  ∧ fix_api_spec webhook_then_billing
    = join_nl ["# Webhooks"; "/api/webhooks/dodo:"; "  post: a"; "# End"].
Proof.
  split; [by vm_compute|]. split; [|by vm_compute].
  apply (bool_decide_unpack _). by vm_compute.
Qed.

(** C7 fails on the code at the end of a file: the pattern asks for a
    white-space character behind [en], so in every document the line
    [  default: en] is quoted when a newline follows it and left as it is
    when it ends the file, as in the one-line file evaluated first; a line
    [  default: enable] is never altered. *)
Theorem default_en_unquoted_at_end_of_file :
  quote_defaults default_en = default_en
  ∧ fix_api_spec default_en = default_en
  ∧ ∀ content i,
      (split_nl content !! i = Some default_en → S i = nlines content →
       split_nl (quote_defaults content) !! i = Some default_en)
      ∧ (split_nl content !! i = Some default_en → S i < nlines content →
         split_nl (quote_defaults content) !! i = Some default_en_quoted)
      ∧ (split_nl content !! i = Some default_enable →
         split_nl (quote_defaults content) !! i = Some default_enable).
Proof.
  split; [by vm_compute|]. split; [by vm_compute|].
  intros content i.
  destruct (quote_defaults_line_by_line content i) as (H1 & H2 & H3).
  by repeat split.
Qed.

(** ** The validator: specification *)

(** C8, as stated, fails: the file parses and has the three required fields,
    and the exit code is 1 all the same, because [len(paths)] raises on the
    null value and the handler of line 83 ends the run with [sys.exit(1)]. *)
Lemma exit_code_nonzero_with_fields_present :
  ¬ (exit_code true (Loaded empty_paths_doc) ≠ 0
     ↔ (Loaded empty_paths_doc = YAMLError
        ∨ ∃ f, f ∈ required_fields ∧ has_field empty_paths_doc f = false)).
Proof.
  intros [Hex _]. destruct Hex as [[=]|(f & Hf & Hno)]; [by vm_compute|].
  unfold required_fields in Hf.
  repeat (apply elem_of_cons in Hf as [->|Hf]; [by vm_compute in Hno|]).
  by apply elem_of_nil in Hf.
Qed.

(** C8 (amended): the exit code is 0 or 1; it is 0 exactly when the file
    loads to a mapping that has the three required fields and the shapes the
    later checks rely on; it is 1 when the file fails to parse, when a
    required field is absent (a mapping then gets the missing-field report),
    and also whenever any other exception ends the run.  A reference to an
    undefined schema prints a warning and leaves the exit code at 0. *)
Theorem validator_exit_code (file : load_result) :
  (exit_code true file = 0 ∨ exit_code true file = 1)
  ∧ (exit_code true file = 0
     ↔ ∃ spec, file = Loaded spec ∧ well_formed spec = true)
  ∧ (file = YAMLError →
     exit_code true file = 1 ∧ MYamlError ∈ stdout true file)
  ∧ (∀ spec, file = Loaded spec →
       (∃ f, f ∈ required_fields ∧ has_field spec f = false) →
       exit_code true file = 1
       ∧ (is_dict spec = true →
          ∃ f, has_field spec f = false ∧ MMissingField f ∈ stdout true file))
  ∧ (∀ spec name, file = Loaded spec → well_formed spec = true →
       unresolved_ref spec name →
       exit_code true file = 0
       ∧ ∃ l, name ∈ l ∧ MMissingRefs l ∈ stdout true file).
Proof.
  pose proof (script_exit_code file) as Hcode.
  split; [|split; [|split; [|split]]].
  - rewrite Hcode. destruct (loads_well_formed file); auto.
  - rewrite Hcode, <-loads_well_formed_iff.
    by destruct (loads_well_formed file).
  - intros ->. split; [done|]. vm_compute. by right; left.
  - intros spec -> (f & Hf & Hno).
    assert (forallb (has_field spec) required_fields = false) as Hall.
    { apply not_true_iff_false. intros Hall.
      rewrite forallb_forall in Hall. apply list_elem_of_In in Hf.
      rewrite (Hall f Hf) in Hno. done. }
    split.
    + rewrite Hcode. unfold loads_well_formed, well_formed.
      destruct spec; try done. by rewrite Hall.
    + destruct spec as [| | | | |d]; try done. intros _.
      destruct (script_missing_field d Hall) as (f' & _ & Hno' & Hrun).
      exists f'. split; [done|]. unfold stdout. rewrite Hrun. simpl.
      by right; right; left.
  - intros spec name -> Hwf (Hname & d & -> & Hin).
    split.
    + rewrite Hcode. unfold loads_well_formed. by rewrite Hwf.
    + destruct (script_well_formed d Hwf) as (n & k & l & Hl & Hrun).
      assert (sized (schemas_of d) = true) as Hs.
      { unfold well_formed in Hwf.
        apply andb_true_iff in Hwf as [_ Hc]. unfold schemas_of.
        by destruct (components_of d). }
      destruct (missing_refs_sized (PDict d) _ Hs) as (l' & Hl' & Hspec).
      rewrite Hl in Hl'. injection Hl' as <-.
      assert (name ∈ l) as Hmem by by apply Hspec.
      exists l. split; [done|]. unfold stdout. rewrite Hrun. simpl.
      destruct l; [by apply elem_of_nil in Hmem|].
      simpl. do 5 right. by left.
Qed.

Lemma validator_exit_code_witness :
  exit_code true (Loaded dangling_ref_doc) = 0
  ∧ ∃ l, "Lang" ∈ l ∧ MMissingRefs l ∈ stdout true (Loaded dangling_ref_doc).
Proof.
  destruct (validator_exit_code (Loaded dangling_ref_doc))
    as (_ & _ & _ & _ & H).
  apply (H dangling_ref_doc "Lang" eq_refl).
  - reflexivity.
  - split.
    + vm_compute. left.
    + eexists. split; reflexivity.
Defined.

(** C10: when [import yaml] fails, the script prints the skip message and
    nothing else, and ends with exit code 0, whatever the file holds. *)
Theorem import_error_skips_validation (file : load_result) :
  stdout false file = [MSkipped] ∧ exit_code false file = 0.
Proof. split; reflexivity. Qed.

(** ** Further properties of [fix_api_spec] *)

Section FixFacts.
Implicit Types (lines : list string) (rm : gset nat).

Lemma filter_seq_sorted (P : nat → Prop) `{!∀ i, Decision (P i)} a n :
  StronglySorted lt (filter P (seq a n)).
Proof.
  revert a. induction n as [|n IH]; intros a; simpl; [constructor|].
  rewrite filter_cons. destruct (decide (P a)); [|apply IH].
  constructor; [apply IH|].
  apply Forall_forall. intros i [_ Hi%elem_of_seq]%list_elem_of_filter. lia.
Qed.

Lemma match_indices_sorted marker lines :
  StronglySorted lt (match_indices marker lines).
Proof. rewrite match_indices_seq. apply filter_seq_sorted. Qed.

Lemma removal_set_ge_1 lines marker is_boundary k :
  k ∈ removal_set lines marker is_boundary → 1 ≤ k < length lines.
Proof.
  intros Hk. split; [|by eapply removal_set_lt].
  apply elem_of_removal_set in Hk as (m & Hm & Hk).
  apply later_match_gt in Hm as (m0 & _ & Hm & _). lia.
Qed.

Lemma removal_set_later lines marker is_boundary k :
  k ∈ removal_set lines marker is_boundary
  ↔ ∃ m, later_occurrence marker lines m
         ∧ m ≤ k < find_end is_boundary lines m.
Proof.
  rewrite elem_of_removal_set. by setoid_rewrite later_occurrence_iff.
Qed.

(** *** [split] and [join] *)

Lemma split_nl_no_nl l : no_nl l = true → split_nl l = [l].
Proof.
  induction l as [|a l IH]; [done|]. simpl.
  intros [Ha Hl]%andb_true_iff. apply negb_true_iff in Ha.
  by rewrite Ha, IH.
Qed.

Lemma split_nl_app_nl l s :
  no_nl l = true → split_nl (l +:+ String nl s) = l :: split_nl s.
Proof.
  induction l as [|a l IH]; [done|]. rewrite sapp_cons, split_nl_cons. simpl.
  intros [Ha Hl]%andb_true_iff. apply negb_true_iff in Ha.
  by rewrite Ha, IH.
Qed.

Lemma split_join_nl (ls : list string) :
  ls ≠ [] → Forall (λ l, no_nl l = true) ls → split_nl (join_nl ls) = ls.
Proof.
  induction ls as [|l [|l' ls] IH]; [done| |].
  - intros _ [Hl _]%Forall_cons. by apply split_nl_no_nl.
  - intros _ [Hl Hls]%Forall_cons.
    change (join_nl (l :: l' :: ls))
      with (l +:+ String nl (join_nl (l' :: ls))).
    rewrite split_nl_app_nl by done. f_equal. by apply IH.
Qed.

Lemma no_nl_split_nl s : Forall (λ l, no_nl l = true) (split_nl s).
Proof.
  induction s as [|a s IH]; [by repeat constructor|].
  rewrite split_nl_cons. destruct (split_nl_nonempty s) as (h & tl & Hs).
  rewrite Hs in IH |- *. apply Forall_cons in IH as [Hh Htl].
  destruct (Ascii.eqb a nl) eqn:Ha; [by repeat constructor|].
  constructor; [|done]. simpl. by rewrite Ha.
Qed.

(** *** The rewritten lines *)

Lemma Forall_sublist_of {A} (P : A → Prop) (l1 l2 : list A) :
  l1 `sublist_of` l2 → Forall P l2 → Forall P l1.
Proof.
  induction 1 as [|x l1 l2 _ IH|x l1 l2 _ IH]; [done| |].
  - intros [? ?]%Forall_cons. constructor; auto.
  - intros [_ ?]%Forall_cons. auto.
Qed.

Lemma cleaned_lines_sublist lines rm : cleaned_lines lines rm `sublist_of` lines.
Proof.
  unfold cleaned_lines.
  assert (lines = (enumerate lines).*2) as Hl.
  { unfold enumerate. rewrite fmap_imap. clear.
    induction lines as [|x l IH] using rev_ind; [done|].
    by rewrite imap_app, <-IH. }
  rewrite Hl at 2. apply fmap_sublist, sublist_filter.
Qed.

Lemma cleaned_lines_head lines rm :
  0 ∉ rm → head (cleaned_lines lines rm) = head lines.
Proof.
  intros H0. rewrite cleaned_lines_seq.
  destruct lines as [|l lines]; [done|]. simpl.
  rewrite filter_cons. by destruct (decide (0 ∉ rm)).
Qed.

Lemma lines_to_remove_range lines k :
  k ∈ lines_to_remove lines → 1 ≤ k < length lines.
Proof.
  rewrite lines_to_remove_union.
  intros [?|?]%elem_of_union; by eapply removal_set_ge_1.
Qed.

Lemma fix_api_spec_join content :
  fix_api_spec content
  = join_nl (cleaned_lines (split_nl (quote_defaults content))
               (lines_to_remove (split_nl (quote_defaults content)))).
Proof.
  unfold fix_api_spec. destruct (decide _) as [->|]; [|done].
  by rewrite cleaned_lines_empty, join_split_nl.
Qed.

Lemma fix_api_spec_split content :
  split_nl (fix_api_spec content)
  = cleaned_lines (split_nl (quote_defaults content))
      (lines_to_remove (split_nl (quote_defaults content))).
Proof.
  rewrite fix_api_spec_join.
  set (lines := split_nl (quote_defaults content)).
  apply split_join_nl.
  - assert (head (cleaned_lines lines (lines_to_remove lines)) = head lines)
      as Hhd.
    { apply cleaned_lines_head. intros H0%lines_to_remove_range. lia. }
    intros Hnil. rewrite Hnil in Hhd. subst lines.
    destruct (split_nl_nonempty (quote_defaults content)) as (? & ? & Hs).
    by rewrite Hs in Hhd.
  - eapply Forall_sublist_of; [apply cleaned_lines_sublist|].
    apply no_nl_split_nl.
Qed.

(** *** A second run of the passes *)



End FixFacts.

Section FixReport.

Lemma elem_of_mark_report heading marking is_boundary lines indices x :
  x ∈ mark_report heading marking is_boundary lines indices →
  x = heading
  ∨ ∃ m, m ∈ drop 1 indices
         ∧ x = marking (m + 1) (find_end is_boundary lines m).
Proof.
  unfold mark_report. destruct (decide _); [|by intros ?%elem_of_nil].
  intros [->|Hx]%elem_of_cons; [by left|]. right.
  apply list_elem_of_fmap in Hx as (m & -> & Hm). by exists m.
Qed.

Lemma mark_report_few heading marking is_boundary lines indices :
  length indices < 2 →
  mark_report heading marking is_boundary lines indices = [].
Proof. intros H. unfold mark_report. by destruct (decide _); [lia|]. Qed.

(** Where a message of [fix_output] can come from. *)
Lemma elem_of_fix_output content x :
  x ∈ fix_output content →
  let lines := split_nl (quote_defaults content) in
  x ∈ [FFixing; FLooking;
       FFoundBilling ((λ i, i + 1) <$> match_indices is_billing lines);
       FFoundWebhook ((λ i, i + 1) <$> match_indices is_webhook_only lines);
       FRemovingBilling; FRemovingWebhook; FFixed]
  ∨ (∃ m, later_occurrence is_billing lines m
          ∧ x = FMarking (m + 1) (find_end billing_boundary lines m))
  ∨ (∃ m, later_occurrence is_webhook_only lines m
          ∧ x = FMarkingWebhook (m + 1) (find_end webhook_boundary lines m))
  ∨ (lines_to_remove lines ≠ ∅ ∧ x = FRemoving (size (lines_to_remove lines))).
Proof.
  unfold fix_output. cbv zeta. rewrite collect_indices_match. simpl.
  set (lines := split_nl (quote_defaults content)).
  rewrite !elem_of_cons, !elem_of_app.
  intros [->|[->|[->|[->|[Hx|[Hx|[Hx|Hx]]]]]]].
  - left. set_solver.
  - left. set_solver.
  - left. set_solver.
  - left. set_solver.
  - apply elem_of_mark_report in Hx as [->|(m & Hm & ->)]; [left; set_solver|].
    right; left. exists m. by rewrite <-later_occurrence_iff.
  - apply elem_of_mark_report in Hx as [->|(m & Hm & ->)]; [left; set_solver|].
    right; right; left. exists m. by rewrite <-later_occurrence_iff.
  - destruct (decide _); [by apply elem_of_nil in Hx|].
    apply list_elem_of_singleton in Hx as ->. by do 3 right.
  - apply list_elem_of_singleton in Hx as ->. left. set_solver.
Qed.

End FixReport.

(** X1: the loop of lines 28-32 puts an index in the billing list exactly
    when its line holds the billing marker, and in the webhook list exactly
    when its line holds the webhook marker and not the billing marker; the
    two lists share no index and both are strictly increasing. *)
Theorem collect_indices_partition (lines : list string) :
  let idx := collect_indices lines in
  (∀ i, i ∈ idx.1 ↔ i < length lines ∧ is_billing (line_at lines i) = true)
  ∧ (∀ i, i ∈ idx.2 ↔ i < length lines
                       ∧ is_billing (line_at lines i) = false
                       ∧ is_webhook (line_at lines i) = true)
  ∧ (∀ i, i ∈ idx.1 → i ∉ idx.2)
  ∧ StronglySorted lt idx.1 ∧ StronglySorted lt idx.2.
Proof.
  cbv zeta. rewrite collect_indices_match. simpl.
  assert (∀ i, i ∈ match_indices is_webhook_only lines
               ↔ i < length lines ∧ is_billing (line_at lines i) = false
                 ∧ is_webhook (line_at lines i) = true) as Hw.
  { intros i. rewrite match_indices_lt. unfold is_webhook_only.
    rewrite andb_true_iff, negb_true_iff. tauto. }
  split; [intros i; apply match_indices_lt|]. split; [done|].
  split; [|split; apply match_indices_sorted].
  intros i [_ Hb]%match_indices_lt (_ & Hnb & _)%Hw. congruence.
Qed.


(** X3: the test of line 73 only saves work: in every case the content
    written back is the join of the unmarked lines, and splitting it again
    gives exactly those lines, a subsequence of the lines of the quoted
    content that starts with the same first line. *)
Theorem fix_api_spec_written_lines (content : string) :
  let lines := split_nl (quote_defaults content) in
  let out := split_nl (fix_api_spec content) in
  fix_api_spec content = join_nl (cleaned_lines lines (lines_to_remove lines))
  ∧ out = cleaned_lines lines (lines_to_remove lines)
  ∧ out `sublist_of` lines
  ∧ head out = head lines.
Proof.
  cbv zeta. split; [apply fix_api_spec_join|].
  rewrite fix_api_spec_split. split; [done|].
  split; [apply cleaned_lines_sublist|].
  apply cleaned_lines_head. intros H0%lines_to_remove_range. lia.
Qed.

(** X4: when, after the quoting step, the billing marker and the webhook
    marker each occur on at most one line, the file is written back with the
    quoting step applied and nothing else, and no removal is reported. *)
Theorem fix_api_spec_without_duplicates (content : string) :
  let lines := split_nl (quote_defaults content) in
  occurrences is_billing lines < 2 → occurrences is_webhook_only lines < 2 →
  fix_api_spec content = quote_defaults content
  ∧ fix_output content
    = [FFixing; FLooking;
       FFoundBilling ((λ i, i + 1) <$> match_indices is_billing lines);
       FFoundWebhook ((λ i, i + 1) <$> match_indices is_webhook_only lines);
       FFixed].
Proof.
  intros lines Hb Hw. split; [by apply fix_api_spec_no_duplicates|].
  unfold fix_output. cbv zeta. fold lines.
  rewrite collect_indices_match. simpl.
  rewrite !mark_report_few by by rewrite length_match_indices.
  rewrite lines_to_remove_union, !removal_set_few by done.
  by rewrite (left_id_L ∅ (∪)), decide_True.
Qed.

Lemma fix_api_spec_without_duplicates_witness :
  fix_api_spec (join_nl ["paths:"; "  /api/billing/plans:"; "    get: a"; ""])
  = join_nl ["paths:"; "  /api/billing/plans:"; "    get: a"; ""].
Proof.
  refine (proj1 (fix_api_spec_without_duplicates _ _ _)); vm_compute; lia.
Defined.


(** X8: when a removal is reported, the number printed is positive and is
    exactly the number of lines by which the written file is shorter than
    the quoted content. *)
Theorem removal_count_reported (content : string) (n : nat) :
  FRemoving n ∈ fix_output content →
  0 < n ∧ nlines (fix_api_spec content) + n = nlines (quote_defaults content).
Proof.
  intros Hin. apply elem_of_fix_output in Hin. cbv zeta in Hin.
  set (lines := split_nl (quote_defaults content)) in *.
  destruct Hin as [Hin|[(m & _ & [=])|[(m & _ & [=])|[Hne [= ->]]]]].
  { rewrite !elem_of_cons in Hin.
    by destruct Hin as [?|[?|[?|[?|[?|[?|[?|?%elem_of_nil]]]]]]]. }
  split.
  - destruct (size (lines_to_remove lines)) eqn:Hsz; [|lia].
    by apply size_empty_iff, leibniz_equiv in Hsz.
  - unfold nlines. rewrite fix_api_spec_split. fold lines.
    apply length_cleaned_lines. intros k Hk%lines_to_remove_range. lia.
Qed.

Lemma removal_count_reported_witness :
  nlines (fix_api_spec webhook_then_billing) + 4
  = nlines (quote_defaults webhook_then_billing).
Proof.
  refine (proj2 (removal_count_reported webhook_then_billing 4 _)).
  apply (bool_decide_unpack _). by vm_compute.
Defined.

(** X9: a marking message of either pass shows a non-empty range of
    one-based line numbers inside the document, starting at line 2 or
    later, and every line of that range is among the removed ones. *)
Theorem marking_messages_in_range (content : string) (a b : nat) :
  FMarking a b ∈ fix_output content
  ∨ FMarkingWebhook a b ∈ fix_output content →
  let lines := split_nl (quote_defaults content) in
  2 ≤ a ≤ b ∧ b ≤ length lines
  ∧ ∀ k, a ≤ k ≤ b → k - 1 ∈ lines_to_remove lines.
Proof.
  intros Hin lines.
  assert (∃ m marker is_boundary,
            later_occurrence marker lines m
            ∧ a = m + 1 ∧ b = find_end is_boundary lines m
            ∧ removal_set lines marker is_boundary ⊆ lines_to_remove lines)
    as (m & marker & is_boundary & Hm & -> & -> & Hsub).
  { unfold lines. rewrite lines_to_remove_union.
    destruct Hin as [Hin|Hin]; apply elem_of_fix_output in Hin;
      cbv zeta in Hin;
      destruct Hin as [Hin|[(m & Hm & Heq)|[(m & Hm & Heq)|[_ Heq]]]];
      try discriminate Heq.
    - rewrite !elem_of_cons in Hin.
      by destruct Hin as [?|[?|[?|[?|[?|[?|[?|?%elem_of_nil]]]]]]].
    - injection Heq as -> ->. exists m, is_billing, billing_boundary.
      do 3 (split; [done|]). apply union_subseteq_l.
    - rewrite !elem_of_cons in Hin.
      by destruct Hin as [?|[?|[?|[?|[?|[?|[?|?%elem_of_nil]]]]]]].
    - injection Heq as -> ->. exists m, is_webhook_only, webhook_boundary.
      do 3 (split; [done|]). apply union_subseteq_r. }
  pose proof Hm as (Hlt & _ & i & Hi & _).
  pose proof (find_end_gt is_boundary lines m Hlt).
  split; [lia|]. split; [lia|].
  intros k Hk. apply Hsub, removal_set_later. exists m. split; [done|]. lia.
Qed.

Lemma marking_messages_in_range_witness :
  4 - 1 ∈ lines_to_remove (split_nl (quote_defaults webhook_then_billing)).
Proof.
  refine (proj2 (proj2 (marking_messages_in_range webhook_then_billing 4 7 _))
            4 _); [|lia].
  right. apply (bool_decide_unpack _). by vm_compute.
Defined.

(** ** Further properties of the quoting step *)

Section QuotingMore.
Implicit Types (s t u w : string) (c : ascii).

Lemma remove_dquotes_app s t :
  remove_dquotes (s +:+ t) = remove_dquotes s +:+ remove_dquotes t.
Proof.
  induction s as [|c s IH]; [done|]. rewrite sapp_cons. simpl.
  destruct (Ascii.eqb c dquote); [done|]. by rewrite sapp_cons, IH.
Qed.

Lemma nlines_remove_dquotes s : nlines (remove_dquotes s) = nlines s.
Proof.
  induction s as [|c s IH]; [done|]. simpl. rewrite nlines_cons.
  destruct (Ascii.eqb c dquote) eqn:Hc.
  - apply Ascii.eqb_eq in Hc as ->. by rewrite IH.
  - by rewrite nlines_cons, IH.
Qed.

Lemma length_skip_lt n s :
  0 < n → s ≠ "" → String.length (skip n s) < String.length s.
Proof.
  revert s. induction n as [|n IH]; intros [|c s] Hn Hs; try done; [lia|].
  simpl. destruct n as [|n]; [destruct s; simpl; lia|].
  destruct s as [|c' s]; [simpl; lia|].
  etrans; [apply IH; [lia|done]|]. simpl. lia.
Qed.

(** A match covers a prefix of the text: white space, the literal and one
    more character. *)
Lemma match_default_split w s repl n :
  match_default w s = Some (repl, n) →
  ∃ ws c, s = (ws +:+ ("default: " +:+ w) +:+ String c "") +:+ skip n s
          ∧ repl = ws +:+ "default: "
                      +:+ String dquote w +:+ String dquote (String c "")
          ∧ 0 < n ∧ s ≠ "".
Proof.
  intros Hm. unfold match_default in Hm.
  apply match_core_Some in Hm as (c & rest & Hrest & _ & Hws & -> & ->).
  exists (take_space s), c.
  assert (s = take_space s +:+ ("default: " +:+ w) +:+ String c rest) as Hs
    by (by rewrite <-Hrest, take_space_lstrip).
  assert (skip (String.length (take_space s)
                + String.length ("default: " +:+ w) + 1)
            (take_space s +:+ ("default: " +:+ w) +:+ String c rest) = rest)
    as Hsk by (by rewrite <-Nat.add_assoc, skip_add, skip_add).
  rewrite <-Hs in Hsk. rewrite Hsk.
  split; [|split; [done|split; [lia|]]].
  - by rewrite !sapp_assoc.
  - intros ->. by destruct Hws.
Qed.

Lemma sub_default_remove_dquotes w s :
  remove_dquotes (sub_default w s) = remove_dquotes s.
Proof.
  remember (String.length s) as k eqn:Hk. revert s Hk.
  induction k as [k IH] using lt_wf_ind. intros s ->.
  destruct s as [|a s]; [done|].
  destruct (match_default w (String a s)) as [[repl n]|] eqn:Hm.
  - rewrite (sub_match _ _ _ _ Hm).
    destruct (match_default_split _ _ _ _ Hm) as (ws & c & Hs & -> & Hn & Hne).
    rewrite remove_dquotes_app.
    rewrite (IH _ (length_skip_lt n _ Hn Hne) _ eq_refl).
    transitivity (remove_dquotes
                    ((ws +:+ ("default: " +:+ w) +:+ String c "")
                       +:+ skip n (String a s))); [|by rewrite <-Hs].
    rewrite (remove_dquotes_app (_ +:+ _ +:+ String c "")). f_equal.
    rewrite !remove_dquotes_app.
    change (remove_dquotes (String dquote w)) with (remove_dquotes w).
    change (remove_dquotes (String dquote (String c "")))
      with (remove_dquotes (String c "")).
    by rewrite sapp_assoc.
  - rewrite (sub_no_match _ _ _ Hm). simpl.
    rewrite (IH (String.length s)) by (simpl; lia || done). done.
Qed.

Lemma quote_defaults_only_adds_quotes_lines content :
  nlines (quote_defaults content) = nlines content.
Proof.
  rewrite <-(nlines_remove_dquotes (quote_defaults _)).
  unfold quote_defaults. rewrite !sub_default_remove_dquotes.
  apply nlines_remove_dquotes.
Qed.

End QuotingMore.

(** X6: the quoting step changes a document only by putting double quotes
    into it: without its double quotes the result is the content without
    its double quotes, and the number of lines stays the same. *)
Theorem quote_defaults_only_adds_quotes (content : string) :
  remove_dquotes (quote_defaults content) = remove_dquotes content
  ∧ nlines (quote_defaults content) = nlines content.
Proof.
  assert (remove_dquotes (quote_defaults content) = remove_dquotes content)
    as Hrd by (unfold quote_defaults; by rewrite !sub_default_remove_dquotes).
  split; [done|].
  by rewrite <-(nlines_remove_dquotes (quote_defaults _)), Hrd,
    nlines_remove_dquotes.
Qed.

Section AdjacentMatches.

Lemma sub_en_literal c' B :
  sub_default "en" ("default: en" +:+ String c' B)
  = "default: en" +:+ sub_default "en" (String c' B).
Proof.
  rewrite ?sapp_cons, ?sapp_nil_l.
  by do 11 (rewrite sub_no_match by reflexivity).
Qed.

End AdjacentMatches.

(** X7: matches do not overlap.  When two occurrences of [default: en] are
    separated by a single white-space character, that character ends the
    first match, nothing is left to start the second, and only the first
    occurrence is quoted. *)
Theorem adjacent_default_left_unquoted (W B : string) (c c' : ascii) :
  all_space W = true → isspace c = true →
  sub_default "en"
    (W +:+ " default: en" +:+ String c ("default: en" +:+ String c' B))
  = W +:+ " default: "
      +:+ String dquote
            ("en" +:+ String dquote
                        (String c ("default: en"
                                     +:+ sub_default "en" (String c' B)))).
Proof.
  intros HW Hc.
  etrans; [exact (sub_space_hit "en" W " " c _ HW eq_refl
                    ltac:(discriminate) Hc)|].
  by rewrite sub_en_literal.
Qed.

Lemma adjacent_default_left_unquoted_witness :
  sub_default "en" " default: en default: en "
  = " default: " +:+ String dquote
                       ("en" +:+ String dquote " default: en ").
Proof.
  exact (adjacent_default_left_unquoted "" "" " " " " eq_refl eq_refl).
Defined.

(** ** Further properties of the validator *)

Section ValidatorMore.

Lemma check_fields_first_missing d pre f post rest out :
  forallb (has_field (PDict d)) pre = true →
  has_field (PDict d) f = false →
  check_fields (PDict d) (pre ++ f :: post) rest out
  = (out ++ [MMissingField f], inr false).
Proof.
  intros Hpre Hf. induction pre as [|g pre IH]; simpl in *.
  - unfold mbind, M_bind, lift. simpl. by rewrite Hf.
  - apply andb_true_iff in Hpre as [Hg Hpre].
    unfold mbind, M_bind, lift. simpl. rewrite Hg. by apply IH.
Qed.



Lemma prefix_app_both p a b :
  String.prefix a b = true → String.prefix (p +:+ a) (p +:+ b) = true.
Proof.
  intros H. induction p as [|c p IH]; [done|]. rewrite !sapp_cons. simpl.
  by destruct (ascii_dec c c).
Qed.

Lemma take_unquoted_prefix s : String.prefix (take_unquoted s) s = true.
Proof.
  induction s as [|c s IH]; [done|]. simpl.
  destruct (Ascii.eqb c dquote); [done|]. simpl.
  by destruct (ascii_dec c c).
Qed.

Lemma take_unquoted_no_dquote s : no_dquote (take_unquoted s) = true.
Proof.
  induction s as [|c s IH]; [done|]. simpl.
  destruct (Ascii.eqb c dquote) eqn:Hc; [done|]. simpl. by rewrite Hc.
Qed.

Lemma match_ref_Some t name :
  match_ref t = Some name →
  name ≠ "" ∧ no_dquote name = true
  ∧ String.prefix (ref_prefix +:+ name) t = true.
Proof.
  unfold match_ref. destruct (String.prefix ref_prefix t) eqn:Hp; [|done].
  apply prefix_skip in Hp.
  destruct (take_unquoted _) as [|c nm] eqn:Hn; [done|].
  intros [= <-]. split; [done|]. rewrite <-Hn.
  split; [apply take_unquoted_no_dquote|].
  rewrite Hp at 2. apply prefix_app_both, take_unquoted_prefix.
Qed.

Lemma findall_refs_from_elem k s name :
  name ∈ findall_refs_from k s →
  name ≠ "" ∧ no_dquote name = true
  ∧ contains (ref_prefix +:+ name) s = true.
Proof.
  revert k. induction s as [|c s IH]; intros k; [by intros ?%elem_of_nil|].
  assert (∀ k', name ∈ findall_refs_from k' s →
                name ≠ "" ∧ no_dquote name = true
                ∧ contains (ref_prefix +:+ name) (String c s) = true) as IH'.
  { intros k' (? & ? & Hc)%IH. split; [done|]. split; [done|].
    simpl. rewrite Hc. apply orb_true_r. }
  simpl. destruct k as [|k]; [|apply IH'].
  destruct (match_ref (String c s)) as [nm|] eqn:Hm; [|apply IH'].
  intros [->|Hin]%elem_of_cons; [|by eapply IH'].
  apply match_ref_Some in Hm as (? & ? & Hp). split; [done|]. split; [done|].
  simpl. simpl in Hp. by rewrite Hp.
Qed.

End ValidatorMore.

(** X10: the field check stops at the first required field that a mapping
    lacks, in the order openapi, info, paths: that field alone is reported,
    nothing else is checked, and the exit code is 1. *)
Theorem first_missing_field_reported
    (d : list (string * pyval)) (pre post : list string) (f : string) :
  required_fields = pre ++ f :: post →
  forallb (has_field (PDict d)) pre = true →
  has_field (PDict d) f = false →
  script true (Loaded (PDict d))
  = ([MValidating; MYamlValid; MMissingField f; MSpecHasIssues], 1).
Proof.
  intros Hreq Hpre Hf. unfold script. rewrite validate_loaded, Hreq.
  by rewrite check_fields_first_missing.
Qed.

Lemma first_missing_field_reported_witness :
  script true (Loaded (PDict [("openapi", PStr "3.0.0")]))
  = ([MValidating; MYamlValid; MMissingField "info"; MSpecHasIssues], 1).
Proof.
  exact (first_missing_field_reported [("openapi", PStr "3.0.0")]
           ["openapi"] ["paths"] "info" eq_refl eq_refl eq_refl).
Defined.

(** X11: a file that loads to null (an empty file), to a boolean or to an
    integer gets no missing-field report: the membership test of line 26
    raises, and the run ends with a validation error and exit code 1. *)
Theorem scalar_document_validation_error (spec : pyval) :
  sized spec = false →
  script true (Loaded spec)
  = ([MValidating; MYamlValid; MValidationError TypeError], 1).
Proof. by destruct spec. Qed.

Lemma scalar_document_validation_error_witness :
  script true (Loaded PNone)
  = ([MValidating; MYamlValid; MValidationError TypeError], 1).
Proof. exact (scalar_document_validation_error PNone eq_refl). Defined.

(** X12: for a document that is a sequence or a string the test
    [field not in spec] is a test for an element or a substring; when all
    three names pass it the fields are reported present, and the run then
    ends on [spec.get] with a validation error and exit code 1. *)
Theorem non_mapping_document_passes_field_check (spec : pyval) :
  is_dict spec = false →
  (∀ f, f ∈ required_fields → py_in f spec = inr true) →
  script true (Loaded spec)
  = ([MValidating; MYamlValid; MFieldsPresent;
      MValidationError AttributeError], 1).
Proof.
  intros Hd Hin. unfold script. rewrite validate_loaded.
  unfold required_fields in *. simpl.
  unfold mbind, M_bind, lift, print. simpl.
  rewrite !Hin by set_solver. simpl.
  by rewrite check_rest_not_dict.
Qed.

Lemma non_mapping_document_passes_field_check_witness :
  script true (Loaded (PStr "openapi, info and paths"))
  = ([MValidating; MYamlValid; MFieldsPresent;
      MValidationError AttributeError], 1).
Proof.
  apply non_mapping_document_passes_field_check; [reflexivity|].
  intros f Hf. unfold required_fields in Hf.
  repeat (apply elem_of_cons in Hf as [->|Hf]; [reflexivity|]).
  by apply elem_of_nil in Hf.
Defined.



(** X14: every name the reference search returns is non-empty, holds no
    double quote, and stands in the searched text right behind the literal
    [#/components/schemas/]. *)
Theorem found_refs_occur (s name : string) :
  name ∈ findall_refs s →
  name ≠ "" ∧ no_dquote name = true
  ∧ contains (ref_prefix +:+ name) s = true.
Proof. apply findall_refs_from_elem. Qed.

Lemma found_refs_occur_witness :
  "Lang" ≠ "" ∧ no_dquote "Lang" = true
  ∧ contains (ref_prefix +:+ "Lang") (json_dumps dangling_ref_doc) = true.
Proof.
  apply found_refs_occur. apply (bool_decide_unpack _). by vm_compute.
Defined.

(** X15: the loop over the parameters (lines 60-69) prints nothing, whatever
    the defaults are; it can only raise, and it runs through without an
    exception exactly when [paths] has the shape [paths_ok]. *)
Theorem check_paths_prints_nothing (paths : pyval) (out : list msg) :
  (check_paths paths out).1 = out
  ∧ ((check_paths paths out).2 = inr tt ↔ paths_ok paths = true).
Proof.
  pose proof (check_paths_silent paths out) as H.
  destruct (paths_ok paths).
  - by rewrite H.
  - destruct H as [e ->]. by split.
Qed.

(** ** Further properties of the passes *)

(** X16: a pass removes a boundary line only when that line is itself an
    occurrence of the marker after the first; every other line that ends a
    section stays. *)
Theorem boundary_lines_kept
    (lines : list string) (marker is_boundary : string → bool) (k : nat) :
  k ∈ removal_set lines marker is_boundary →
  is_boundary (line_at lines k) = true →
  later_occurrence marker lines k.
Proof.
  intros (m & Hm & Hk)%removal_set_later Hb.
  destruct (decide (k = m)) as [->|Hne]; [done|].
  destruct Hm as (Hlt & _).
  destruct (find_end_spec is_boundary lines m Hlt) as (_ & Hno & _).
  rewrite Hno in Hb by lia. done.
Qed.

Lemma boundary_lines_kept_witness :
  later_occurrence (String.eqb "/x:") doc6 4.
Proof.
  apply (boundary_lines_kept doc6 (String.eqb "/x:") (startswith "/") 4);
    [|reflexivity].
  apply (bool_decide_unpack _). by vm_compute.
Defined.

(** X17: the written file has as many lines as the file read minus the
    number of marked lines: the quoting step keeps the count and each marked
    index takes one line away. *)
Theorem fix_api_spec_line_count (content : string) :
  nlines (fix_api_spec content)
  + size (lines_to_remove (split_nl (quote_defaults content)))
  = nlines content.
Proof.
  pose proof (quote_defaults_only_adds_quotes_lines content) as Hq.
  unfold nlines at 1. rewrite fix_api_spec_split, <-Hq.
  apply length_cleaned_lines. intros k Hk%lines_to_remove_range. lia.
Qed.
